(** * Route weather backend: waypoint reduction and weather enrichment

    A shallow embedding of [backend/app.py]: the waypoint pipeline of the
    [route_weather] handler (leg-wise sampling, deduplication, limiting)
    and the weather lookup [get_weather_data], followed by the properties
    the specification states about them.

    Conventions of the embedding.
    - A Python [int] is a [Z]; [len l] is [Z.of_nat (length l)] and [//] on
      the non-negative values met here is [Z.div].
    - A finite Python [float] is the rational it denotes, a [Q]; the
      non-finite floats are outside the model.
    - A statement that may raise returns a [result]; a [try] with its
      [except] clauses is [try_except], which picks the first clause whose
      class matches the exception.
    - The weather provider is an oracle telling what the n-th outbound call
      returns; the calls issued so far are an explicit log. *)

From stdpp Require Import base numbers list strings gmap.
From Stdlib Require Import QArith.

#[local] Set Warnings "-register-all".

#[local] Open Scope string_scope.
#[local] Open Scope list_scope.
#[local] Open Scope Z_scope.

(** ** Exceptions and the error monad *)

(** The exception classes the code can meet.  [RequestException] stands for
    the whole [requests.exceptions] family (connection errors, timeouts,
    [HTTPError] of [raise_for_status]); every class below derives from
    Python's [Exception]. *)
Inductive exn :=
  | ValueError
  | IndexError
  | KeyError
  | TypeError
  | RequestException
  | OtherException (name : string).

#[global] Instance exn_eq_dec : EqDecision exn.
Proof. solve_decision. Defined.

Inductive result (A : Type) :=
  | Ok (a : A)
  | Raise (e : exn).
Arguments Ok {A} a.
Arguments Raise {A} e.

#[global] Instance result_ret : MRet result := λ A a, Ok a.
#[global] Instance result_bind : MBind result := λ A B f m,
  match m with
  | Ok a => f a
  | Raise e => Raise e
  end.

Definition is_ok {A} (r : result A) : bool :=
  match r with Ok _ => true | Raise _ => false end.

(** The classes named by the [except] clauses of the source. *)
Inductive exn_class :=
  | CRequestException
  | CException.

Definition isinstance (e : exn) (c : exn_class) : bool :=
  match c, e with
  | CException, _ => true
  | CRequestException, RequestException => true
  | CRequestException, _ => false
  end.

(** [try: body  except c1: h1  except c2: h2 ...]: the first clause whose
    class matches handles the exception; with no match it propagates. *)
Fixpoint try_except {A} (body : result A)
    (handlers : list (exn_class * (exn → result A))) : result A :=
  match body with
  | Ok a => Ok a
  | Raise e =>
      match handlers with
      | [] => Raise e
      | (c, h) :: rest =>
          if isinstance e c then h e else try_except (Raise e) rest
      end
  end.

(** ** Python built-ins used by the handler *)

Definition len {A} (l : list A) : Z := Z.of_nat (length l).

(** Number of items of a range with a positive step between [lo] and [hi]
    (CPython computes it up front, the iterator then yields
    [start + i * step]). *)
Definition range_length (lo hi step : Z) : Z :=
  if (0 <? step) && (lo <? hi) then 1 + (hi - 1 - lo) / step else 0.

(** [range(start, stop, step)], materialised.  A zero step is a
    [ValueError]. *)
Definition py_range (start stop step : Z) : result (list Z) :=
  if step =? 0 then Raise ValueError
  else
    let n := if 0 <? step then range_length start stop step
             else range_length stop start (- step) in
    Ok ((λ k : nat, start + Z.of_nat k * step) <$> seq 0 (Z.to_nat n)).

(** [l[i]] on a list: negative indices count from the end, an index out of
    range is an [IndexError]. *)
Definition getitem {A} (l : list A) (i : Z) : result A :=
  let j := if i <? 0 then i + len l else i in
  if j <? 0 then Raise IndexError
  else match l !! Z.to_nat j with
       | Some x => Ok x
       | None => Raise IndexError
       end.

(** The body of [for x in xs: acc.append(f x)] where [f] may raise: the
    first exception leaves the loop. *)
Fixpoint for_each {A B} (f : A → result B) (xs : list A) : result (list B) :=
  match xs with
  | [] => Ok []
  | x :: xs' => y ← f x; ys ← for_each f xs'; Ok (y :: ys)
  end.

(** Half-to-even rounding of a rational to an integer. *)
Definition round_half_even (q : Q) : Z :=
  let n := Qnum q in
  let d := Z.pos (Qden q) in
  let f := n / d in
  match 2 * (n mod d) ?= d with
  | Lt => f
  | Gt => f + 1
  | Eq => if Z.even f then f else f + 1
  end.

(** [round(x, 4)] of a finite float: the exact value of [x] is rounded
    half-to-even to four decimals.  The result is kept as the integer
    count of ten-thousandths; two finite floats have equal [round(_, 4)]
    exactly when these counts are equal. *)
Definition round4 (x : Q) : Z := round_half_even (x * 10000)%Q.

(** ** Data model *)

(** A [{'lat': .., 'lng': ..}] object of the routing provider. *)
Record latlng := LatLng { lat : Q; lng : Q }.

(** A step of a leg: [step['end_location']] and the optional
    [step.get('html_instructions', 'Waypoint')]. *)
Record route_step := RouteStep {
  html_instructions : option string;
  end_location : latlng
}.

(** A leg of the route.  [distance_text] is
    [leg.get('distance', {}).get('text')], absent when either key is. *)
Record route_leg := RouteLeg {
  steps : list route_step;
  start_address : string;
  start_location : latlng;
  end_address : string;
  leg_end_location : latlng;
  distance_text : option string;
  duration_text : option string
}.

(** The dictionaries appended to [waypoints]. *)
Record waypoint := Waypoint {
  wp_address : string;
  wp_lat : Q;
  wp_lon : Q
}.

(** A decoded JSON value, as [response.json()] returns it. *)
Inductive json :=
  | JNull
  | JBool (b : bool)
  | JNumber (x : Q)
  | JString (s : string)
  | JArray (items : list json)
  | JObject (members : gmap string json).

(** The subscript of [v[k]]. *)
Inductive subscript :=
  | Key (s : string)
  | Index (i : Z).

(** ** Waypoint extraction: route_weather, "Extract waypoints from the route" *)

(** [step_interval = max(1, len(steps) // 5) if len(steps) > 5 else len(steps)] *)
Definition step_interval (n : Z) : Z :=
  if 5 <? n then Z.max 1 (n / 5) else n.

Definition step_waypoint (st : route_step) : waypoint :=
  {| wp_address := default "Waypoint" (html_instructions st);
     wp_lat := lat (end_location st);
     wp_lon := lng (end_location st) |}.

(** The inner loop [for i in range(0, len(steps), step_interval)] of one
    leg, giving the waypoints it appends. *)
Definition sample_leg (leg : route_leg) : result (list waypoint) :=
  idxs ← py_range 0 (len (steps leg)) (step_interval (len (steps leg)));
  for_each (λ i, st ← getitem (steps leg) i; Ok (step_waypoint st)) idxs.

Definition start_waypoint (leg : route_leg) : waypoint :=
  {| wp_address := start_address leg;
     wp_lat := lat (start_location leg);
     wp_lon := lng (start_location leg) |}.

Definition end_waypoint (leg : route_leg) : waypoint :=
  {| wp_address := end_address leg;
     wp_lat := lat (leg_end_location leg);
     wp_lon := lng (leg_end_location leg) |}.

(** [waypoints] after the start location, the sampled steps of every leg
    and the end location were appended. *)
Definition extract_waypoints (legs : list route_leg) : result (list waypoint) :=
  first_leg ← getitem legs 0;
  sampled ← for_each sample_leg legs;
  last_leg ← getitem legs (-1);
  Ok (start_waypoint first_leg :: concat sampled ++ [end_waypoint last_leg]).

(** ** Removal of duplicates *)

(** [coord_key = (round(wp['lat'], 4), round(wp['lon'], 4))] *)
Definition coord_key (wp : waypoint) : Z * Z :=
  (round4 (wp_lat wp), round4 (wp_lon wp)).

(** One iteration of [for wp in waypoints], on the pair
    [(unique_waypoints, seen_coords)]. *)
Definition dedup_step (acc : list waypoint * gset (Z * Z)) (wp : waypoint)
    : list waypoint * gset (Z * Z) :=
  if decide (coord_key wp ∈ acc.2) then acc
  else (acc.1 ++ [wp], {[coord_key wp]} ∪ acc.2).

Definition remove_duplicates (waypoints : list waypoint) : list waypoint :=
  (foldl dedup_step ([], ∅) waypoints).1.

(** The reading of the specification: a waypoint is kept exactly when no
    earlier waypoint of the input has its key. *)
Definition first_occurrences (waypoints : list waypoint) : list waypoint :=
  (filter (λ iw : nat * waypoint,
             coord_key iw.2 ∉ coord_key <$> take iw.1 waypoints)
          (imap (λ i w, (i, w)) waypoints)).*2.

(** ** Limiting the number of waypoints *)

(** The block under [if len(unique_waypoints) > 10]. *)
Definition limit_waypoints (unique : list waypoint) : result (list waypoint) :=
  if 10 <? len unique then
    let step := len unique / 9 in
    first ← getitem unique 0;
    idxs ← py_range step (len unique - 1) step;
    middle ← for_each (getitem unique) idxs;
    last ← getitem unique (-1);
    Ok ((first :: middle) ++ [last])
  else Ok unique.

(** The waypoints the weather is fetched for. *)
Definition reduce_route (legs : list route_leg) : result (list waypoint) :=
  waypoints ← extract_waypoints legs;
  limit_waypoints (remove_duplicates waypoints).

(** ** The outside world: weather provider and query log *)

(** The call [requests.get(url, params=params, timeout=10)]. *)
Record request := Request {
  req_url : string;
  req_lat : Q;
  req_lon : Q;
  req_appid : string;
  req_units : string;
  req_timeout : Z
}.

(** What one call to the provider gives: [requests.get] itself raises (no
    connection, timeout), or a response arrives with a status code and a
    body that [response.json()] either decodes or rejects with an
    exception. *)
Inductive http_result :=
  | NoResponse (e : exn)
  | Response (status_code : Z) (body : result json).

(** One element of [weather_data]. *)
Record weather_entry := WeatherEntry {
  location : string;
  entry_lat : Q;
  entry_lon : Q;
  weather : gmap string json
}.

Record response_data := ResponseData {
  success : bool;
  resp_start_address : string;
  resp_end_address : string;
  distance : string;
  duration : string;
  weather_data : list weather_entry
}.

(** The record handed to [log_to_mongodb] (the timestamp it adds is left
    out). *)
Record log_data := LogData {
  log_start_address : string;
  log_end_address : string;
  waypoint_count : Z;
  response : response_data
}.

(** The state the handler acts on: the provider calls issued so far and the
    documents stored in [query_logs]. *)
Record world := World {
  calls : list request;
  query_logs : list log_data
}.

(** The world after one more call to the provider. *)
Definition add_call (w : world) (req : request) : world :=
  {| calls := calls w ++ [req]; query_logs := query_logs w |}.

(** Computations that act on the world and may raise. *)
Definition io (A : Type) : Type := world → result A * world.

Definition io_ret {A} (a : A) : io A := λ w, (Ok a, w).

Definition io_bind {A B} (m : io A) (f : A → io B) : io B := λ w,
  match m w with
  | (Ok a, w') => f a w'
  | (Raise e, w') => (Raise e, w')
  end.

Definition lift {A} (r : result A) : io A := λ w, (r, w).

Declare Scope io_scope.
Delimit Scope io_scope with io.
Notation "x <- m ;; k" := (io_bind m (λ x, k))
  (at level 100, m at next level, right associativity) : io_scope.
Notation "m ;;; k" := (io_bind m (λ _, k))
  (at level 100, right associativity) : io_scope.

(** [try: body except ...] around a computation on the world: what the
    body did before raising stays done. *)
Definition try_io {A} (body : io A)
    (handlers : list (exn_class * (exn → result A))) : io A := λ w,
  let '(r, w') := body w in (try_except r handlers, w').

(** The HTTP reply of the handler: [jsonify(response_data)] with status 200,
    or [jsonify({'success': False, 'error': ...})] with an error status. *)
Inductive reply_body :=
  | Payload (r : response_data)
  | ErrorBody (error : string).

Record http_reply := HttpReply {
  status : Z;
  reply : reply_body
}.

(** ** get_weather_data *)

(** [response.raise_for_status()] *)
Definition raise_for_status (status_code : Z) : result unit :=
  if (400 <=? status_code) && (status_code <? 600) then Raise RequestException
  else Ok ().

(** [v[k]] on a decoded JSON value.  The keys of a decoded object are
    strings, so an integer subscript finds nothing; a string is indexed by
    character; [None], booleans and numbers are not subscriptable. *)
Definition json_getitem (v : json) (k : subscript) : result json :=
  match v, k with
  | JObject members, Key s =>
      match members !! s with
      | Some x => Ok x
      | None => Raise KeyError
      end
  | JObject _, Index _ => Raise KeyError
  | JArray items, Index i => getitem items i
  | JArray _, Key _ => Raise TypeError
  | JString s, Index i =>
      c ← getitem (String.list_ascii_of_string s) i; Ok (JString (String c EmptyString))
  | JString _, Key _ => Raise TypeError
  | _, _ => Raise TypeError
  end.

(** [v[k1][k2]...] *)
Definition json_path (v : json) (ks : list subscript) : result json :=
  foldl (λ r k, x ← r; json_getitem x k) (Ok v) ks.

Definition not_configured : gmap string json :=
  {[ "error" := JString "Weather API key not configured";
     "temperature" := JString "N/A";
     "conditions" := JString "N/A";
     "description" := JString "Weather API key not available" ]}.

Definition fetch_failed : gmap string json :=
  {[ "error" := JString "Unable to fetch weather data";
     "temperature" := JString "N/A";
     "conditions" := JString "Error fetching weather data" ]}.

Definition process_failed : gmap string json :=
  {[ "error" := JString "Unable to process weather data";
     "temperature" := JString "N/A";
     "conditions" := JString "Error processing weather data" ]}.

(** The entry appended to [weather_data] for a waypoint. *)
Definition entry_of (wp : waypoint) (observation : gmap string json) : weather_entry :=
  {| location := wp_address wp;
     entry_lat := wp_lat wp;
     entry_lon := wp_lon wp;
     weather := observation |}.

Section Backend.

(** The environment variable [WEATHER_API_KEY] ([''] when unset). *)
Variable WEATHER_API_KEY : string.

(** What the n-th call to the weather provider returns. *)
Variable provider : nat → request → http_result.

(** Python's [str()] on a decoded JSON value, as the f-strings apply it;
    its rendering of floats is not modelled. *)
Variable str : json → string.

(** The global [db]: [None], or a collection whose [insert_one] accepts
    or rejects a document. *)
Variable db : option (log_data → result unit).

Definition weather_request (lat lon : Q) : request :=
  {| req_url := "https://api.openweathermap.org/data/2.5/weather";
     req_lat := lat;
     req_lon := lon;
     req_appid := WEATHER_API_KEY;
     req_units := "metric";
     req_timeout := 10 |}.

(** [requests.get]: the call is issued and logged, then the provider
    answers or the call raises. *)
Definition requests_get (req : request) : io (Z * result json) := λ w,
  match provider (length (calls w)) req with
  | NoResponse e => (Raise e, add_call w req)
  | Response status_code body => (Ok (status_code, body), add_call w req)
  end.

(** The dictionary built from the decoded body, its items evaluated in
    the order of the source. *)
Definition normalize (data : json) : result (gmap string json) :=
  temp ← json_path data [Key "main"; Key "temp"];
  conditions ← json_path data [Key "weather"; Index 0; Key "main"];
  description ← json_path data [Key "weather"; Index 0; Key "description"];
  humidity ← json_path data [Key "main"; Key "humidity"];
  speed ← json_path data [Key "wind"; Key "speed"];
  Ok ({[ "temperature" := JString (str temp +:+ "°C");
         "conditions" := conditions;
         "description" := description;
         "humidity" := JString (str humidity +:+ "%");
         "wind_speed" := JString (str speed +:+ " m/s") ]} : gmap string json).

Definition get_weather_data (lat lon : Q) : io (gmap string json) :=
  if decide (WEATHER_API_KEY = "") then io_ret not_configured
  else
    try_io
      (response <- requests_get (weather_request lat lon) ;;
       lift (raise_for_status response.1) ;;;
       data <- lift response.2 ;;
       lift (normalize data))%io
      [ (CRequestException, λ _, Ok fetch_failed);
        (CException, λ _, Ok process_failed) ].

(** ** route_weather, from "Fetch weather for each waypoint" on *)

(** The loop [for waypoint in unique_waypoints]. *)
Fixpoint fetch_weather (unique : list waypoint) : io (list weather_entry) :=
  match unique with
  | [] => io_ret []
  | wp :: rest =>
      (observation <- get_weather_data (wp_lat wp) (wp_lon wp) ;;
       entries <- fetch_weather rest ;;
       io_ret (entry_of wp observation :: entries))%io
  end.

(** [log_to_mongodb]: a rejected document is logged and forgotten. *)
Definition log_to_mongodb (query_data : log_data) : io unit := λ w,
  match db with
  | Some insert_one =>
      match insert_one query_data with
      | Ok _ => (Ok (), {| calls := calls w;
                           query_logs := query_logs w ++ [query_data] |})
      | Raise _ => (Ok (), w)
      end
  | None => (Ok (), w)
  end.

(** The handler for a request that passed validation and for which the
    routing provider returned [legs]: the body of the outer [try]. *)
Definition route_weather_body (start_addr end_addr : string)
    (legs : list route_leg) : io response_data :=
  (unique <- lift (reduce_route legs) ;;
   entries <- fetch_weather unique ;;
   first_leg <- lift (getitem legs 0) ;;
   let response_data :=
     {| success := true;
        resp_start_address := start_addr;
        resp_end_address := end_addr;
        distance := default "N/A" (distance_text first_leg);
        duration := default "N/A" (duration_text first_leg);
        weather_data := entries |} in
   log_to_mongodb {| log_start_address := start_addr;
                     log_end_address := end_addr;
                     waypoint_count := len unique;
                     response := response_data |} ;;;
   io_ret response_data)%io.

(** The outer [except Exception] turns every exception into a 500. *)
Definition route_weather (start_addr end_addr : string)
    (legs : list route_leg) (w : world) : http_reply * world :=
  match route_weather_body start_addr end_addr legs w with
  | (Ok response_data, w') => ({| status := 200; reply := Payload response_data |}, w')
  | (Raise _, w') =>
      ({| status := 500;
          reply := ErrorBody "Internal server error. Please try again later." |}, w')
  end.

End Backend.

(** ** Outcomes of a lookup *)

(** The decoded body has every item the handler reads. *)
Definition well_formed (data : json) : bool :=
  is_ok (json_path data [Key "main"; Key "temp"]) &&
  is_ok (json_path data [Key "weather"; Index 0; Key "main"]) &&
  is_ok (json_path data [Key "weather"; Index 0; Key "description"]) &&
  is_ok (json_path data [Key "main"; Key "humidity"]) &&
  is_ok (json_path data [Key "wind"; Key "speed"]).

(** The provider's answer lets the lookup succeed: a response arrived, its
    status is not an error status, and its body decodes to a well-formed
    value.  Everything else (a network error or timeout, a 4xx or 5xx
    status, a body that is not JSON or lacks an item) is a failed lookup. *)
Definition answer_succeeds (answer : http_result) : bool :=
  match answer with
  | Response status_code (Ok data) =>
      is_ok (raise_for_status status_code) && well_formed data
  | _ => false
  end.

(** The keys of a successful reading. *)
Definition success_fields : gset string :=
  {[ "temperature"; "conditions"; "description"; "humidity"; "wind_speed" ]}.

(** The key that marks a failure. *)
Definition is_failure (observation : gmap string json) : Prop :=
  "error" ∈ dom observation.

#[global] Instance is_failure_dec observation : Decision (is_failure observation).
Proof. unfold is_failure. apply _. Defined.

(** The observation [get_weather_data] gives for an answer of the provider
    when a key is configured: the normalised body of a successful answer,
    one of the two failure dictionaries otherwise. *)
Definition observed (str : json → string) (answer : http_result)
    (observation : gmap string json) : Prop :=
  if answer_succeeds answer
  then ∃ status_code data,
         answer = Response status_code (Ok data) ∧
         normalize str data = Ok observation ∧
         dom observation = success_fields
  else observation = fetch_failed ∨ observation = process_failed.

(** An observation with both a key of the successful shape and the key of
    the failure shape. *)
Definition mixes_shapes (observation : gmap string json) : Prop :=
  is_failure observation ∧ ∃ k, k ∈ success_fields ∧ k ∈ dom observation.

(** ** The endpoint, from the request body on *)

(** [AttributeError], raised by [data.get] and [.strip()] on values that
    have no such method, and [googlemaps.exceptions.ApiError]. *)
Definition AttributeError : exn := OtherException "AttributeError".
Definition ApiError : exn := OtherException "googlemaps.exceptions.ApiError".

(** Truth value of a decoded JSON value, as [if not data] tests it. *)
Definition truthy (v : json) : bool :=
  match v with
  | JNull => false
  | JBool b => b
  | JNumber x => negb (Qnum x =? 0)
  | JString s => negb (bool_decide (s = ""))
  | JArray items => negb (bool_decide (items = []))
  | JObject members => negb (bool_decide (members = ∅))
  end.

(** [data.get(k, default)]: only a dictionary has the method. *)
Definition dict_get (data : json) (k : string) (default_value : json) : result json :=
  match data with
  | JObject members => Ok (default default_value (members !! k))
  | _ => Raise AttributeError
  end.

(** One route of the routing provider: [route['legs']]. *)
Record route := Route { route_legs : list route_leg }.

Definition error_reply (code : Z) (message : string) : http_reply :=
  {| status := code; reply := ErrorBody message |}.

(** The body of [health_check]. *)
Record health := Health {
  health_status : string;
  google_maps_configured : bool;
  weather_api_configured : bool;
  mongodb_connected : bool
}.

Section Endpoint.

Variable GOOGLE_MAPS_KEY : string.
Variable WEATHER_API_KEY : string.
Variable provider : nat → request → http_result.
Variable str : json → string.
Variable db : option (log_data → result unit).

(** Python's [str.strip()]. *)
Variable strip : string → string.

(** The global [gmaps]: [None], or a client whose [directions] returns the
    routes found or raises. *)
Variable gmaps : option (string → string → result (list route)).

(** [v.strip()]: only a string has the method. *)
Definition str_strip (v : json) : result string :=
  match v with
  | JString s => Ok (strip s)
  | _ => Raise AttributeError
  end.

(** [data.get(k, '').strip()] *)
Definition address_field (data : json) (k : string) : result string :=
  v ← dict_get data k (JString ""); str_strip v.

Definition health_check : health :=
  {| health_status := "healthy";
     google_maps_configured := negb (bool_decide (GOOGLE_MAPS_KEY = ""));
     weather_api_configured := negb (bool_decide (WEATHER_API_KEY = ""));
     mongodb_connected := bool_decide (is_Some db) |}.

(** The handler of [POST /api/route_weather], given what
    [request.get_json()] returns or raises. *)
Definition route_weather_endpoint (request_json : result json) (w : world)
    : http_reply * world :=
  let internal_error :=
    (error_reply 500 "Internal server error. Please try again later.", w) in
  match request_json with
  | Raise _ => internal_error
  | Ok data =>
      if negb (truthy data) then (error_reply 400 "No data provided", w)
      else
        match (start_addr ← address_field data "start_address";
               end_addr ← address_field data "end_address";
               Ok (start_addr, end_addr)) with
        | Raise _ => internal_error
        | Ok (start_addr, end_addr) =>
            if bool_decide (start_addr = "") || bool_decide (end_addr = "") then
              (error_reply 400 "Both start_address and end_address are required", w)
            else
              match gmaps with
              | None =>
                  (error_reply 503
                     "Google Maps API not configured. Please set GOOGLE_MAPS_KEY environment variable.",
                   w)
              | Some directions =>
                  match directions start_addr end_addr with
                  | Raise e =>
                      if decide (e = ApiError) then
                        (error_reply 500
                           "Google Maps API error. Please check your API key and try again.",
                         w)
                      else
                        (error_reply 500
                           "Error calculating route. Please verify your addresses and try again.",
                         w)
                  | Ok [] =>
                      (error_reply 404 "No route found between the specified addresses", w)
                  | Ok (first_route :: _) =>
                      route_weather WEATHER_API_KEY provider str db
                        start_addr end_addr (route_legs first_route) w
                  end
              end
        end
  end.

End Endpoint.

(** ** Concrete routes *)

(** A step ending at latitude and longitude [n]. *)
Definition step_at (n : Z) : route_step :=
  {| html_instructions := None; end_location := LatLng (n # 1) (n # 1) |}.

(** A leg from [(0, 0)] to [(100, 100)] with [n] steps, ending at
    [(1, 1)], ..., [(n, n)]. *)
Definition leg_of_steps (n : nat) : route_leg :=
  {| steps := step_at <$> (Z.of_nat <$> seq 1 n);
     start_address := "Start";
     start_location := LatLng 0 0;
     end_address := "End";
     leg_end_location := LatLng 100 100;
     distance_text := Some "10 km";
     duration_text := Some "12 mins" |}.

(** A well-formed body of the weather provider. *)
Definition sample_body : json :=
  JObject {[
    "main" := JObject {[ "temp" := JNumber (215 # 10); "humidity" := JNumber 40 ]};
    "weather" := JArray [JObject {[ "main" := JString "Clouds";
                                    "description" := JString "scattered clouds" ]}];
    "wind" := JObject {[ "speed" := JNumber (31 # 10) ]} ]}.

(** A stand-in for [str()] that renders strings only. *)
Definition sample_str (v : json) : string :=
  match v with
  | JString s => s
  | _ => "?"
  end.

(** A provider whose second call times out and whose other calls answer
    200 with [sample_body]. *)
Definition sample_provider (n : nat) (_ : request) : http_result :=
  match n with
  | 1%nat => NoResponse RequestException
  | _ => Response 200 (Ok sample_body)
  end.

Definition fresh_world : world := {| calls := []; query_logs := [] |}.

(** The three waypoints of a route of one leg with one step. *)
Definition sample_unique : list waypoint :=
  [ {| wp_address := "Start"; wp_lat := 0; wp_lon := 0 |};
    {| wp_address := "Waypoint"; wp_lat := 1 # 1; wp_lon := 1 # 1 |};
    {| wp_address := "End"; wp_lat := 100; wp_lon := 100 |} ].

(** A stand-in for [str.strip()] that strips ASCII spaces only. *)
Fixpoint lstrip_spaces (s : string) : string :=
  match s with
  | String c s' =>
      if Ascii.eqb c (Ascii.ascii_of_nat 32) then lstrip_spaces s' else s
  | EmptyString => s
  end.

Definition strip_spaces (s : string) : string :=
  String.rev (lstrip_spaces (String.rev (lstrip_spaces s))).

(** A routing client that finds one route, of one leg with one step. *)
Definition sample_gmaps : option (string → string → result (list route)) :=
  Some (λ _ _, Ok [ {| route_legs := [leg_of_steps 1] |} ]).

Definition sample_request : json :=
  JObject {[ "start_address" := JString " A "; "end_address" := JString "B" ]}.

(** * Properties *)

(** ** Built-ins *)

Example py_range_0_8_1 : py_range 0 8 1 = Ok [0; 1; 2; 3; 4; 5; 6; 7].
Proof. reflexivity. Qed.
Example py_range_0_11_2 : py_range 0 11 2 = Ok [0; 2; 4; 6; 8; 10].
Proof. reflexivity. Qed.
Example py_range_0_0_0 : py_range 0 0 0 = Raise ValueError.
Proof. reflexivity. Qed.
Example py_range_down : py_range 5 0 (-2) = Ok [5; 3; 1].
Proof. reflexivity. Qed.
Example getitem_last : getitem [10; 20; 30] (-1) = Ok 30.
Proof. reflexivity. Qed.
Example getitem_oob : getitem [10; 20; 30] 3 = Raise IndexError.
Proof. reflexivity. Qed.
Example round4_half_even : round4 (25 # 100000) = 2 ∧ round4 (35 # 100000) = 4.
Proof. split; reflexivity. Qed.
Example round4_neg : round4 (- (123456 # 1000000)) = -1235.
Proof. reflexivity. Qed.
Example step_interval_values :
  step_interval <$> [0; 1; 3; 5; 6; 8; 9; 10; 14] = [0; 1; 3; 5; 1; 1; 1; 2; 2].
Proof. reflexivity. Qed.
Example raise_for_status_values :
  raise_for_status <$> [200; 304; 404; 500; 600] =
  [Ok (); Ok (); Raise RequestException; Raise RequestException; Ok ()].
Proof. reflexivity. Qed.
Example well_formed_sample_body : well_formed sample_body = true.
Proof. by vm_compute. Qed.
Example well_formed_empty_list :
  well_formed (JObject {[ "main" := JObject {[ "temp" := JNumber 1;
                                               "humidity" := JNumber 2 ]};
                          "weather" := JArray [];
                          "wind" := JObject {[ "speed" := JNumber 3 ]} ]}) = false.
Proof. by vm_compute. Qed.

Lemma len_nonneg {A} (l : list A) : 0 ≤ len l.
Proof. unfold len. lia. Qed.

Lemma len_cons {A} (x : A) (l : list A) : len (x :: l) = 1 + len l.
Proof. unfold len. simpl. lia. Qed.

Lemma getitem_nat {A} (l : list A) (i : nat) :
  getitem l (Z.of_nat i) =
  match l !! i with Some x => Ok x | None => Raise IndexError end.
Proof.
  unfold getitem.
  destruct (Z.ltb_spec (Z.of_nat i) 0) as [?|_]; [lia|].
  destruct (Z.ltb_spec (Z.of_nat i) 0) as [?|_]; [lia|].
  by rewrite Nat2Z.id.
Qed.

Lemma getitem_last_ok {A} (l : list A) (x : A) :
  getitem (l ++ [x]) (-1) = Ok x.
Proof.
  unfold getitem, len. rewrite length_app. simpl.
  replace (-1 + Z.of_nat (length l + 1)) with (Z.of_nat (length l)) by lia.
  destruct (Z.ltb_spec (Z.of_nat (length l)) 0) as [?|_]; [lia|].
  rewrite Nat2Z.id, lookup_app_r by lia.
  by rewrite Nat.sub_diag.
Qed.

Lemma py_range_pos (start stop step : Z) :
  0 < step →
  py_range start stop step =
  Ok ((λ k : nat, start + Z.of_nat k * step) <$>
      seq 0 (Z.to_nat (range_length start stop step))).
Proof.
  intros Hstep. unfold py_range.
  destruct (Z.eqb_spec step 0) as [?|_]; [lia|].
  destruct (Z.ltb_spec 0 step) as [_|?]; [done|lia].
Qed.

Lemma for_each_Forall2 {A B} (f : A → result B) xs ys :
  for_each f xs = Ok ys ↔ Forall2 (λ x y, f x = Ok y) xs ys.
Proof.
  revert ys. induction xs as [|x xs IH]; intros ys; simpl.
  - split.
    + intros [= <-]. constructor.
    + intros H. by inversion H.
  - unfold mbind, result_bind.
    destruct (f x) as [y|e] eqn:Hx.
    + destruct (for_each f xs) as [ys'|e] eqn:Hxs.
      * split.
        -- intros [= <-]. constructor; [done|]. by apply IH.
        -- intros H. inversion H as [|? y' ? ys'' Hy Hys]; subst.
           apply IH in Hys. congruence.
      * split; [done|].
        intros H. inversion H as [|? y' ? ys'' Hy Hys]; subst.
        apply IH in Hys. congruence.
    + split; [done|].
      intros H. inversion H; subst. congruence.
Qed.

Lemma for_each_fmap {A B} (f : A → result B) (g : A → B) xs :
  (∀ x, x ∈ xs → f x = Ok (g x)) → for_each f xs = Ok (g <$> xs).
Proof.
  intros H. apply for_each_Forall2.
  apply Forall2_fmap_r, Forall_Forall2_diag, Forall_forall. done.
Qed.

Lemma for_each_raise {A B} (f : A → result B) xs x e :
  x ∈ xs → f x = Raise e → ∃ e', for_each f xs = Raise e'.
Proof.
  intros Hin Hx. induction xs as [|y xs IH]; [by apply elem_of_nil in Hin|].
  simpl. unfold mbind, result_bind.
  apply elem_of_cons in Hin as [<-|Hin].
  - rewrite Hx. eauto.
  - destruct (f y); [|eauto].
    destruct (IH Hin) as [e' ->]. eauto.
Qed.

Lemma for_each_total {A B} (f : A → result B) xs :
  (∀ x, x ∈ xs → ∃ y, f x = Ok y) → ∃ ys, for_each f xs = Ok ys.
Proof.
  induction xs as [|x xs IH]; intros Hall; [by exists []|].
  destruct (Hall x) as [y Hy]; [by left|].
  destruct IH as [ys Hys]; [intros x' Hx'; apply Hall; by right|].
  exists (y :: ys). simpl. by rewrite Hy, Hys.
Qed.

Lemma getitem_nonneg {A} (l : list A) (j : Z) :
  0 ≤ j →
  getitem l j = match l !! Z.to_nat j with Some x => Ok x | None => Raise IndexError end.
Proof. intros Hj. by rewrite <- (Z2Nat.id j) at 1 by done; rewrite getitem_nat. Qed.

(** Elements read at the indices of an arithmetic progression come in the
    order of the list. *)
Lemma progression_sublist {A} (l : list A) (a s : Z) (n : nat) (xs : list A) :
  0 ≤ a → 0 < s →
  Forall2 (λ j x, l !! Z.to_nat j = Some x)
          ((λ k : nat, a + Z.of_nat k * s) <$> seq 0 n) xs →
  xs `sublist_of` drop (Z.to_nat a) l.
Proof.
  intros Ha Hs. revert a Ha xs.
  induction n as [|n IH]; intros a Ha xs Hall.
  - inversion Hall. apply sublist_nil_l.
  - simpl in Hall. inversion Hall as [|? x ? xs' Hx Hxs]; subst.
    rewrite Z.add_0_r in Hx.
    rewrite (drop_S _ _ _ Hx). apply sublist_skip.
    rewrite <- fmap_S_seq, <- list_fmap_compose in Hxs.
    assert (0 ≤ a + s) as Has by lia.
    specialize (IH (a + s) Has xs').
    etrans; [apply IH|].
    + eapply Forall2_impl; [|by intros ?? H; exact H].
      erewrite list_fmap_ext; [exact Hxs|].
      intros ? k _. unfold compose. lia.
    + replace (Z.to_nat (a + s)) with (S (Z.to_nat a) + Z.to_nat (s - 1))%nat by lia.
      rewrite <- drop_drop. apply sublist_drop.
Qed.

Lemma for_each_getitem {A} (l : list A) (idxs : list Z) (n : nat) :
  (∀ j, j ∈ idxs → 0 ≤ j < Z.of_nat n) →
  (n ≤ length l)%nat →
  ∃ xs,
    for_each (getitem l) idxs = Ok xs ∧
    Forall2 (λ j x, take n l !! Z.to_nat j = Some x) idxs xs.
Proof.
  intros Hidx Hn. induction idxs as [|j idxs IH]; [by exists []|].
  destruct IH as (xs & Hxs & Hall); [intros j' Hj'; apply Hidx; by right|].
  destruct (Hidx j) as [Hlo Hhi]; [by left|].
  destruct (lookup_lt_is_Some_2 l (Z.to_nat j)) as [x Hx]; [lia|].
  exists (x :: xs). split.
  - simpl. by rewrite getitem_nonneg, Hx, Hxs.
  - constructor; [|done]. by rewrite lookup_take_lt by lia.
Qed.

(** ** Leg-wise sampling *)

Lemma step_interval_short (n : Z) : n ≤ 5 → step_interval n = n.
Proof.
  intros H. unfold step_interval.
  destruct (Z.ltb_spec 5 n); [lia|done].
Qed.

Lemma step_interval_long (n : Z) :
  5 < n → step_interval n = n / 5 ∧ 1 ≤ n / 5.
Proof.
  intros H. unfold step_interval.
  destruct (Z.ltb_spec 5 n); [|lia].
  assert (1 ≤ n / 5) by (apply Z.div_le_lower_bound; lia).
  split; [lia|done].
Qed.

(** A leg without steps makes the sampling loop raise: the interval is
    [len(steps)], that is zero, and [range] rejects a zero step. *)
Lemma sample_leg_no_steps (leg : route_leg) :
  steps leg = [] → sample_leg leg = Raise ValueError.
Proof. intros H. unfold sample_leg. by rewrite H. Qed.

(** The number of indices [0, interval, 2 * interval, ...] below [n]. *)
Lemma range_length_from_zero (n interval : Z) :
  0 < interval → 0 < n →
  range_length 0 n interval = 1 + (n - 1) / interval.
Proof.
  intros Hi Hn. unfold range_length.
  destruct (Z.ltb_spec 0 interval); [|lia].
  destruct (Z.ltb_spec 0 n); [|lia].
  simpl. by rewrite Z.sub_0_r.
Qed.

Lemma sampled_count_bounds (n : Z) :
  5 < n →
  1 + (n - 1) / (n / 5) = (n + n / 5 - 1) / (n / 5) ∧
  5 ≤ 1 + (n - 1) / (n / 5) ≤ 9.
Proof.
  intros Hn.
  assert (1 ≤ n / 5) as Hi by (apply Z.div_le_lower_bound; lia).
  pose proof (Z.mul_div_le n 5 ltac:(lia)) as Hlo.
  pose proof (Z.mul_succ_div_gt n 5 ltac:(lia)) as Hhi.
  split.
  - replace (n + n / 5 - 1) with ((n - 1) + 1 * (n / 5)) by lia.
    rewrite Z.div_add by lia. lia.
  - split.
    + assert (4 ≤ (n - 1) / (n / 5)); [|lia].
      apply Z.div_le_lower_bound; lia.
    + assert ((n - 1) / (n / 5) < 9); [|lia].
      apply Z.div_lt_upper_bound; lia.
Qed.

(** The waypoints of a leg whose interval is positive: one per index
    [k * interval] below the number of steps. *)
Lemma sample_leg_positive (leg : route_leg) :
  0 < len (steps leg) →
  0 < step_interval (len (steps leg)) →
  ∃ ws,
    sample_leg leg = Ok ws ∧
    len ws = 1 + (len (steps leg) - 1) / step_interval (len (steps leg)) ∧
    ∀ k : nat, (k < length ws)%nat →
      ws !! k = step_waypoint <$>
                steps leg !! Z.to_nat (Z.of_nat k * step_interval (len (steps leg))).
Proof.
  intros Hn Hi.
  set (n := len (steps leg)) in *. set (i := step_interval n) in *.
  assert (0 ≤ (n - 1) / i) as Hq by (apply Z.div_pos; lia).
  pose proof (Z.mul_div_le (n - 1) i Hi) as Hmul.
  unfold sample_leg. fold n i.
  rewrite py_range_pos, range_length_from_zero by done.
  unfold mbind at 1, result_bind at 1.
  set (idxs := (λ k : nat, 0 + Z.of_nat k * i) <$> _).
  set (g := λ j : Z, step_waypoint <$> steps leg !! Z.to_nat j).
  assert (∀ j, j ∈ idxs →
            0 ≤ j ∧ ∃ st, steps leg !! Z.to_nat j = Some st) as Hidx.
  { intros j (k & -> & Hk%elem_of_seq)%list_elem_of_fmap.
    split; [lia|]. apply lookup_lt_is_Some_2. unfold n, len in *. nia. }
  assert (∃ ws, for_each
            (λ j, st ← getitem (steps leg) j; Ok (step_waypoint st)) idxs = Ok ws ∧
            Forall2 (λ j w, g j = Some w) idxs ws) as (ws & Hws & Hall).
  { clear -Hidx. induction idxs as [|j idxs IH]; [by exists []|].
    destruct IH as (ws & Hws & Hall).
    { intros j' Hj'. apply Hidx. by right. }
    destruct (Hidx j) as (Hj & st & Hst); [by left|].
    exists (step_waypoint st :: ws). split.
    - simpl. rewrite Hws. unfold mbind, result_bind.
      rewrite <- (Z2Nat.id j), getitem_nat, Hst by done. done.
    - constructor; [|done]. unfold g. by rewrite Hst. }
  exists ws. split; [done|].
  pose proof (Forall2_length _ _ _ Hall) as Hlen.
  unfold idxs in Hlen. rewrite length_fmap, length_seq in Hlen.
  split; [unfold len; lia|].
  intros k Hk.
  destruct (lookup_lt_is_Some_2 ws k Hk) as [w Hw].
  destruct (Forall2_lookup_r _ _ _ _ _ Hall Hw) as (j & Hj & Hg).
  unfold idxs in Hj. rewrite list_lookup_fmap in Hj.
  rewrite lookup_seq_lt in Hj by lia. simpl in Hj.
  injection Hj as <-. rewrite Hw. unfold g in Hg.
  by rewrite Z.add_0_l in Hg.
Qed.

(** The sampled waypoints are those of the steps at [0, interval,
    2 * interval, ...], for as long as the index is below the number of
    steps. *)
Lemma sample_leg_indices (leg : route_leg) :
  0 < len (steps leg) →
  0 < step_interval (len (steps leg)) →
  ∃ ws,
    sample_leg leg = Ok ws ∧
    len ws = 1 + (len (steps leg) - 1) / step_interval (len (steps leg)) ∧
    ∀ k : nat,
      ws !! k =
      if decide (Z.of_nat k * step_interval (len (steps leg)) < len (steps leg))
      then step_waypoint <$>
           steps leg !! Z.to_nat (Z.of_nat k * step_interval (len (steps leg)))
      else None.
Proof.
  intros Hn Hi.
  destruct (sample_leg_positive leg Hn Hi) as (ws & Hws & Hlen & Hk).
  exists ws. split; [done|]. split; [done|].
  intros k.
  set (n := len (steps leg)) in *. set (i := step_interval n) in *.
  pose proof (Z.mul_div_le (n - 1) i Hi) as Hmul.
  assert (0 ≤ (n - 1) / i) as Hq by (apply Z.div_pos; lia).
  case_decide as Hlt.
  - apply Hk.
    assert (Z.of_nat k ≤ (n - 1) / i) by (apply Z.div_le_lower_bound; lia).
    unfold len in Hlen. lia.
  - apply lookup_ge_None. unfold len in Hlen. nia.
Qed.

(** C2, the claim as stated, fails: a leg of two steps yields the
    waypoint of its first step only. *)
Lemma sample_leg_short_not_every_step :
  ¬ ∀ leg : route_leg,
      1 ≤ len (steps leg) ≤ 5 →
      sample_leg leg = Ok (step_waypoint <$> steps leg).
Proof.
  intros H. specialize (H (leg_of_steps 2)).
  assert (1 ≤ len (steps (leg_of_steps 2)) ≤ 5) as Hlen by (vm_compute; split; discriminate).
  apply H in Hlen. vm_compute in Hlen. discriminate.
Qed.

(** C2, amended: for a leg of 1 to 5 steps the sampling interval is the
    number of steps itself, so the sampler selects the step at index 0 and
    no other; its end location and instruction are the only waypoint
    candidate of the leg. *)
Theorem sample_leg_short (leg : route_leg) :
  1 ≤ len (steps leg) ≤ 5 →
  step_interval (len (steps leg)) = len (steps leg) ∧
  ∃ st, steps leg !! 0%nat = Some st ∧ sample_leg leg = Ok [step_waypoint st].
Proof.
  intros [Hlo Hhi].
  pose proof (step_interval_short _ Hhi) as Hint.
  split; [done|].
  destruct (sample_leg_indices leg) as (ws & Hws & Hlen & Hk); [lia..|].
  rewrite Hint in Hlen, Hk.
  rewrite Z.div_small in Hlen by lia.
  specialize (Hk 0%nat).
  rewrite decide_True in Hk by lia.
  change (Z.to_nat (Z.of_nat 0 * len (steps leg))) with 0%nat in Hk.
  destruct (steps leg) as [|st sts]; [unfold len in Hlo; simpl in Hlo; lia|].
  exists st. split; [done|].
  rewrite Hws. f_equal.
  destruct ws as [|w [|w' ws]]; simpl in Hk;
    [done|congruence|unfold len in Hlen; simpl in Hlen; lia].
Qed.

Lemma sample_leg_short_witness :
  step_interval (len (steps (leg_of_steps 3))) = len (steps (leg_of_steps 3)) ∧
  ∃ st, steps (leg_of_steps 3) !! 0%nat = Some st ∧
        sample_leg (leg_of_steps 3) = Ok [step_waypoint st].
Proof. apply (sample_leg_short (leg_of_steps 3)). vm_compute. split; discriminate. Defined.

(** C4, the claim as stated, fails: a leg of six steps has interval 1 and
    all six steps are sampled, more than five. *)
Lemma sample_leg_long_more_than_five :
  ¬ ∀ (leg : route_leg) (ws : list waypoint),
      5 < len (steps leg) →
      sample_leg leg = Ok ws →
      let interval := Z.max 1 (len (steps leg) / 5) in
      (len (steps leg) + interval - 1) / interval ≤ len ws ≤ 5.
Proof.
  intros H.
  destruct (H (leg_of_steps 6) (step_waypoint <$> steps (leg_of_steps 6)))
    as [_ Hlen]; [done|by vm_compute|].
  vm_compute in Hlen. by apply Hlen.
Qed.

(** C4, amended: for a leg of N > 5 steps the interval is
    [max(1, N // 5)], the sampler selects the steps at indices 0, interval,
    2 * interval, ... while the index is below N, the step at index 0 is
    among them, and their number is the ceiling of N / interval, which lies
    between 5 and 9. *)
Theorem sample_leg_long (leg : route_leg) :
  5 < len (steps leg) →
  let n := len (steps leg) in
  let interval := Z.max 1 (n / 5) in
  step_interval n = interval ∧
  ∃ ws,
    sample_leg leg = Ok ws ∧
    (∀ k : nat,
       ws !! k =
       if decide (Z.of_nat k * interval < n)
       then step_waypoint <$> steps leg !! Z.to_nat (Z.of_nat k * interval)
       else None) ∧
    ws !! 0%nat = step_waypoint <$> steps leg !! 0%nat ∧
    len ws = (n + interval - 1) / interval ∧
    5 ≤ len ws ≤ 9.
Proof.
  intros Hn n interval.
  destruct (step_interval_long _ Hn) as [Hint Hpos]. fold n in Hint, Hpos.
  assert (interval = n / 5) as Hmax by (unfold interval; lia).
  split; [congruence|].
  destruct (sample_leg_indices leg) as (ws & Hws & Hlen & Hk); [fold n; lia..|].
  fold n in Hlen, Hk. rewrite Hint in Hlen, Hk.
  destruct (sampled_count_bounds n Hn) as [Hceil Hbounds].
  exists ws. rewrite Hmax. repeat split; try done; try lia.
  - specialize (Hk 0%nat). simpl in Hk. by rewrite decide_True in Hk by lia.
Qed.

Lemma sample_leg_long_witness :
  let n := len (steps (leg_of_steps 14)) in
  let interval := Z.max 1 (n / 5) in
  step_interval n = interval ∧
  ∃ ws,
    sample_leg (leg_of_steps 14) = Ok ws ∧
    (∀ k : nat,
       ws !! k =
       if decide (Z.of_nat k * interval < n)
       then step_waypoint <$>
            steps (leg_of_steps 14) !! Z.to_nat (Z.of_nat k * interval)
       else None) ∧
    ws !! 0%nat = step_waypoint <$> steps (leg_of_steps 14) !! 0%nat ∧
    len ws = (n + interval - 1) / interval ∧
    5 ≤ len ws ≤ 9.
Proof. apply (sample_leg_long (leg_of_steps 14)). vm_compute. reflexivity. Defined.

(** ** Removal of duplicates *)

Lemma dedup_seen (waypoints : list waypoint) (k : Z * Z) :
  k ∈ (foldl dedup_step ([], ∅) waypoints).2 ↔ k ∈ coord_key <$> waypoints.
Proof.
  induction waypoints as [|wp waypoints IH] using rev_ind.
  - simpl. rewrite elem_of_nil. set_solver.
  - rewrite foldl_app, fmap_app, elem_of_app. simpl.
    unfold dedup_step at 1. case_decide as Hseen; simpl.
    + rewrite IH. rewrite list_elem_of_singleton.
      split; [tauto|]. intros [?| ->]; [done|]. by apply IH.
    + rewrite elem_of_union, elem_of_singleton, IH, list_elem_of_singleton. tauto.
Qed.

(** One more waypoint at the end of the input is appended to the output
    exactly when its key is new. *)
Lemma remove_duplicates_snoc (waypoints : list waypoint) (wp : waypoint) :
  remove_duplicates (waypoints ++ [wp]) =
  if decide (coord_key wp ∈ coord_key <$> waypoints)
  then remove_duplicates waypoints
  else remove_duplicates waypoints ++ [wp].
Proof.
  unfold remove_duplicates. rewrite foldl_app. simpl.
  unfold dedup_step at 1.
  pose proof (dedup_seen waypoints (coord_key wp)) as Hseen.
  repeat case_decide; tauto || done.
Qed.

Lemma filter_ext_in {A} (P Q : A → Prop)
    `{∀ x, Decision (P x)} `{∀ x, Decision (Q x)} (l : list A) :
  (∀ x, x ∈ l → P x ↔ Q x) → filter P l = filter Q l.
Proof.
  induction l as [|x l IH]; intros Hext; [done|].
  rewrite !filter_cons.
  rewrite IH by (intros y Hy; apply Hext; by right).
  pose proof (Hext x ltac:(by left)).
  repeat case_decide; tauto || done.
Qed.

Lemma first_occurrences_snoc (waypoints : list waypoint) (wp : waypoint) :
  first_occurrences (waypoints ++ [wp]) =
  if decide (coord_key wp ∈ coord_key <$> waypoints)
  then first_occurrences waypoints
  else first_occurrences waypoints ++ [wp].
Proof.
  unfold first_occurrences.
  rewrite imap_app, filter_app, fmap_app. simpl.
  rewrite (filter_ext_in _
    (λ iw : nat * waypoint, coord_key iw.2 ∉ coord_key <$> take iw.1 waypoints)).
  - rewrite filter_cons, filter_nil. simpl.
    rewrite Nat.add_0_r, take_app_length.
    case_decide; case_decide; try tauto; simpl; by rewrite ?app_nil_r.
  - intros [i w] (w' & j & [= -> ->] & Hj)%elem_of_lookup_imap. simpl.
    apply lookup_lt_Some in Hj.
    by rewrite take_app_le by lia.
Qed.

Lemma remove_duplicates_first_occurrences (waypoints : list waypoint) :
  remove_duplicates waypoints = first_occurrences waypoints.
Proof.
  induction waypoints as [|wp waypoints IH] using rev_ind; [done|].
  by rewrite remove_duplicates_snoc, first_occurrences_snoc, IH.
Qed.

Lemma remove_duplicates_sublist (waypoints : list waypoint) :
  remove_duplicates waypoints `sublist_of` waypoints.
Proof.
  induction waypoints as [|wp waypoints IH] using rev_ind; [done|].
  rewrite remove_duplicates_snoc. case_decide.
  - by apply sublist_inserts_r.
  - by apply sublist_app.
Qed.

Lemma remove_duplicates_keys_NoDup (waypoints : list waypoint) :
  NoDup (coord_key <$> remove_duplicates waypoints).
Proof.
  induction waypoints as [|wp waypoints IH] using rev_ind; [constructor|].
  rewrite remove_duplicates_snoc. case_decide as Hseen; [done|].
  rewrite fmap_app. apply NoDup_app. split; [done|]. split.
  - intros k Hk ->%list_elem_of_singleton. apply Hseen.
    apply list_elem_of_fmap in Hk as (w & -> & Hw).
    apply list_elem_of_fmap. exists w. split; [done|].
    eapply elem_of_sublist; [done|apply remove_duplicates_sublist].
  - apply NoDup_singleton.
Qed.

(** Every key of the input is still represented in the output. *)
Lemma remove_duplicates_keys (waypoints : list waypoint) (k : Z * Z) :
  k ∈ coord_key <$> remove_duplicates waypoints ↔ k ∈ coord_key <$> waypoints.
Proof.
  induction waypoints as [|wp waypoints IH] using rev_ind; [done|].
  rewrite remove_duplicates_snoc, (fmap_app _ waypoints), (elem_of_app _ _ k).
  change (coord_key <$> [wp]) with [coord_key wp].
  rewrite <- IH. case_decide as Hseen.
  - rewrite list_elem_of_singleton. split; [tauto|].
    intros [?| ->]; [done|]. by apply IH.
  - by rewrite fmap_app, elem_of_app.
Qed.

(** C3: for every input the output of the deduplication pass has no two
    waypoints with the same key (latitude and longitude rounded to four
    decimals), and it is the subsequence of the input made of the first
    occurrence of each distinct key, in input order. *)
Theorem remove_duplicates_correct (waypoints : list waypoint) :
  NoDup (coord_key <$> remove_duplicates waypoints) ∧
  remove_duplicates waypoints `sublist_of` waypoints ∧
  remove_duplicates waypoints = first_occurrences waypoints ∧
  (∀ k, k ∈ coord_key <$> remove_duplicates waypoints ↔
        k ∈ coord_key <$> waypoints).
Proof.
  split; [apply remove_duplicates_keys_NoDup|].
  split; [apply remove_duplicates_sublist|].
  split; [apply remove_duplicates_first_occurrences|].
  apply remove_duplicates_keys.
Qed.

(** ** Limiting the number of waypoints *)

Lemma limit_waypoints_at_most_ten (unique : list waypoint) :
  len unique ≤ 10 → limit_waypoints unique = Ok unique.
Proof.
  intros H. unfold limit_waypoints.
  destruct (Z.ltb_spec 10 (len unique)); [lia|done].
Qed.

(** C9: limiting is a no-op on a sequence of at most 10 waypoints; hence
    whenever a first application yields at most 10 elements, applying the
    limiting twice is the same as applying it once. *)
Theorem limit_waypoints_noop (unique : list waypoint) :
  len unique ≤ 10 →
  limit_waypoints unique = Ok unique ∧
  ∀ input : list waypoint,
    limit_waypoints input = Ok unique →
    (limit_waypoints input ≫= limit_waypoints) = limit_waypoints input.
Proof.
  intros H.
  pose proof (limit_waypoints_at_most_ten unique H) as Hnoop.
  split; [done|].
  intros input Hinput. rewrite Hinput. exact Hnoop.
Qed.

Lemma limit_waypoints_noop_witness :
  let unique := remove_duplicates
                  [start_waypoint (leg_of_steps 2); end_waypoint (leg_of_steps 2)] in
  limit_waypoints unique = Ok unique ∧
  ∀ input : list waypoint,
    limit_waypoints input = Ok unique →
    (limit_waypoints input ≫= limit_waypoints) = limit_waypoints input.
Proof.
  apply (limit_waypoints_noop
           (remove_duplicates
              [start_waypoint (leg_of_steps 2); end_waypoint (leg_of_steps 2)])).
  vm_compute. discriminate.
Defined.

(** With 11 to 17 waypoints [len(unique_waypoints) // 9] is 1, every
    interior index is visited, and the block under
    [if len(unique_waypoints) > 10] rebuilds the list it was given. *)
Lemma limit_waypoints_step_one (unique : list waypoint) :
  10 < len unique ≤ 17 → limit_waypoints unique = Ok unique.
Proof.
  intros [Hlo Hhi].
  do 18 (destruct unique as [|? unique];
         [first [ exfalso; unfold len in Hlo; simpl in Hlo; lia
                | reflexivity ] |]).
  exfalso. unfold len in Hhi. simpl in Hhi. lia.
Qed.

Lemma interior_count_bounds (m : Z) :
  10 < m →
  1 ≤ m / 9 ∧
  range_length (m / 9) (m - 1) (m / 9) = (m - 2) / (m / 9) ∧
  8 ≤ (m - 2) / (m / 9) ≤ 15.
Proof.
  intros Hm.
  assert (1 ≤ m / 9) as Hs by (apply Z.div_le_lower_bound; lia).
  pose proof (Z.mul_div_le m 9 ltac:(lia)) as Hlo.
  pose proof (Z.mul_succ_div_gt m 9 ltac:(lia)) as Hhi.
  split; [done|]. split.
  - unfold range_length.
    destruct (Z.ltb_spec 0 (m / 9)); [|lia].
    destruct (Z.ltb_spec (m / 9) (m - 1)); [|lia].
    simpl.
    replace (m - 1 - 1 - m / 9) with ((m - 2) + (-1) * (m / 9)) by lia.
    rewrite Z.div_add by lia. lia.
  - split.
    + apply Z.div_le_lower_bound; lia.
    + assert ((m - 2) / (m / 9) < 16); [|lia].
      apply Z.div_lt_upper_bound; lia.
Qed.

(** What the limiting block keeps of more than 10 waypoints: the first
    one, the ones at the multiples of [len // 9] before the last index, and
    the last one, in the order of the input; between 8 and 15 interior
    waypoints are kept. *)
Lemma limit_waypoints_long (unique : list waypoint) :
  10 < len unique →
  ∃ first middle last,
    limit_waypoints unique = Ok (first :: middle ++ [last]) ∧
    head unique = Some first ∧
    list.last unique = Some last ∧
    first :: middle ++ [last] `sublist_of` unique ∧
    (∀ k : nat, (k < length middle)%nat →
       middle !! k = unique !! Z.to_nat ((Z.of_nat k + 1) * (len unique / 9))) ∧
    len middle = (len unique - 2) / (len unique / 9) ∧
    8 ≤ len middle ≤ 15.
Proof.
  intros Hm.
  destruct (interior_count_bounds _ Hm) as (Hs & Hcount & Hbounds).
  destruct unique as [|wp unique _] using rev_ind; [done|].
  rename wp into last_wp.
  destruct unique as [|first_wp init];
    [unfold len in Hm; simpl in Hm; lia|].
  set (u := (first_wp :: init) ++ [last_wp]) in *.
  set (s := len u / 9) in *.
  assert (len u = Z.of_nat (length (first_wp :: init)) + 1) as Hlen.
  { unfold u, len. rewrite length_app. simpl. lia. }
  assert (∀ j, j ∈ (λ k : nat, s + Z.of_nat k * s) <$>
                   seq 0 (Z.to_nat (range_length s (len u - 1) s)) →
               0 ≤ j < Z.of_nat (length (first_wp :: init))) as Hidx.
  { intros j (k & -> & Hk%elem_of_seq)%list_elem_of_fmap.
    rewrite Hcount in Hk.
    assert (Z.of_nat k + 1 ≤ (len u - 2) / s) as Hk' by lia.
    pose proof (Z.mul_div_le (len u - 2) s ltac:(lia)) as Hmul.
    nia. }
  destruct (for_each_getitem u _ (length (first_wp :: init)) Hidx)
    as (middle & Hmiddle & Hall).
  { unfold u. rewrite length_app. lia. }
  unfold u in Hall at 1. rewrite take_app_length in Hall.
  assert (len middle = (len u - 2) / s) as Hmid.
  { apply Forall2_length in Hall.
    rewrite length_fmap, length_seq, Hcount in Hall.
    unfold len at 1. lia. }
  exists first_wp, middle, last_wp.
  split; [|split; [done|split; [|split; [|split; [|split; [done|lia]]]]]].
  - unfold limit_waypoints.
    destruct (Z.ltb_spec 10 (len u)); [|lia].
    fold s. rewrite py_range_pos by lia.
    change (getitem u 0) with (Ok first_wp).
    unfold mbind at 1 2, result_bind at 1 2.
    rewrite Hmiddle. unfold mbind at 1, result_bind at 1.
    unfold u at 1. rewrite getitem_last_ok. done.
  - unfold u. by rewrite last_snoc.
  - unfold u. rewrite app_comm_cons. apply sublist_app; [|done].
    apply sublist_skip.
    apply progression_sublist in Hall; [|lia..].
    etrans; [exact Hall|].
    replace (Z.to_nat s) with (S (Z.to_nat (s - 1))) by lia.
    simpl. apply sublist_drop.
  - intros k Hk.
    destruct (lookup_lt_is_Some_2 middle k Hk) as [x Hx].
    destruct (Forall2_lookup_r _ _ _ _ _ Hall Hx) as (j & Hj & Hinit).
    rewrite list_lookup_fmap in Hj.
    apply Forall2_length in Hall. rewrite length_fmap, length_seq in Hall.
    rewrite lookup_seq_lt in Hj by lia. simpl in Hj. injection Hj as <-.
    rewrite Hx. unfold u.
    replace ((Z.of_nat k + 1) * s) with (s + Z.of_nat k * s) by lia.
    symmetry. apply lookup_app_l_Some. exact Hinit.
Qed.

(** C1 at its failing input: a route of one leg with nine steps gives 11
    distinct waypoints, and the limiting step returns all 11 of them, nine
    interior ones between the first and the last. *)
Theorem limit_waypoints_eleven :
  ∃ waypoints,
    extract_waypoints [leg_of_steps 9] = Ok waypoints ∧
    len (remove_duplicates waypoints) = 11 ∧
    limit_waypoints (remove_duplicates waypoints) = Ok (remove_duplicates waypoints) ∧
    reduce_route [leg_of_steps 9] = Ok (remove_duplicates waypoints).
Proof.
  eexists. split; [by vm_compute|].
  split; [done|]. split; by vm_compute.
Qed.

(** ** Weather lookup *)

Section WeatherProperties.

Context (provider : nat → request → http_result).
Context (str : json → string).
Context (db : option (log_data → result unit)).

Lemma normalize_well_formed (data : json) :
  well_formed data = true →
  ∃ observation,
    normalize str data = Ok observation ∧ dom observation = success_fields.
Proof.
  unfold well_formed, normalize. intros H.
  destruct (json_path data [Key "main"; Key "temp"]); [|done].
  destruct (json_path data [Key "weather"; Index 0; Key "main"]); [|done].
  destruct (json_path data [Key "weather"; Index 0; Key "description"]); [|done].
  destruct (json_path data [Key "main"; Key "humidity"]); [|done].
  destruct (json_path data [Key "wind"; Key "speed"]); [|done].
  eexists. split; [reflexivity|].
  rewrite !dom_insert_L, dom_singleton_L. unfold success_fields. set_solver.
Qed.

Lemma normalize_ill_formed (data : json) :
  well_formed data = false → ∃ e, normalize str data = Raise e.
Proof.
  unfold well_formed, normalize. intros H.
  destruct (json_path data [Key "main"; Key "temp"]); [|by eexists].
  destruct (json_path data [Key "weather"; Index 0; Key "main"]); [|by eexists].
  destruct (json_path data [Key "weather"; Index 0; Key "description"]); [|by eexists].
  destruct (json_path data [Key "main"; Key "humidity"]); [|by eexists].
  destruct (json_path data [Key "wind"; Key "speed"]); [|by eexists].
  done.
Qed.

(** The two [except] clauses of [get_weather_data] handle every
    exception. *)
Lemma weather_handlers_total (e : exn) :
  try_except (Raise e)
    [ (CRequestException, λ _, Ok fetch_failed);
      (CException, λ _, Ok process_failed) ]
  = Ok (if isinstance e CRequestException then fetch_failed else process_failed).
Proof. by destruct e. Qed.

Lemma failure_markers_fail :
  is_failure not_configured ∧ is_failure fetch_failed ∧ is_failure process_failed.
Proof. repeat split; by vm_compute. Qed.

Lemma success_fields_no_error (observation : gmap string json) :
  dom observation = success_fields → ¬ is_failure observation.
Proof.
  unfold is_failure. intros ->.
  apply (bool_decide_eq_false _). by vm_compute.
Qed.

(** Without a key nothing is sent. *)
Lemma get_weather_data_no_key (lat lon : Q) (w : world) :
  get_weather_data "" provider str lat lon w = (Ok not_configured, w).
Proof. reflexivity. Qed.

(** With a key exactly one call is issued, and the observation is decided
    by the provider's answer to it. *)
Lemma get_weather_data_configured (key : string) (lat lon : Q) (w : world) :
  key ≠ "" →
  let req := weather_request key lat lon in
  let answer := provider (length (calls w)) req in
  ∃ observation,
    get_weather_data key provider str lat lon w = (Ok observation, add_call w req) ∧
    observed str answer observation.
Proof.
  intros Hkey req answer. unfold observed.
  unfold get_weather_data. rewrite decide_False by done.
  unfold try_io, io_bind, requests_get, lift. fold req. fold answer.
  destruct answer as [e|status_code [data|e]] eqn:Hanswer; cbn -[try_except normalize].
  - rewrite weather_handlers_total. eexists. split; [done|].
    destruct (isinstance e CRequestException); auto.
  - destruct (raise_for_status status_code) as [[]|e]; cbn -[try_except normalize].
    + destruct (well_formed data) eqn:Hwf.
      * destruct (normalize_well_formed data Hwf) as (observation & Hobs & Hdom).
        rewrite Hobs. cbn -[normalize]. eauto 10.
      * destruct (normalize_ill_formed data Hwf) as (e & He).
        rewrite He, weather_handlers_total. eexists. split; [done|].
        destruct (isinstance e CRequestException); auto.
    + rewrite weather_handlers_total. eexists. split; [done|].
      destruct (isinstance e CRequestException); auto.
  - destruct (raise_for_status status_code) as [[]|e']; cbn -[try_except normalize].
    + rewrite weather_handlers_total. eexists. split; [done|].
      destruct (isinstance e CRequestException); auto.
    + rewrite weather_handlers_total. eexists. split; [done|].
      destruct (isinstance e' CRequestException); auto.
Qed.

Lemma observed_failure (answer : http_result) (observation : gmap string json) :
  observed str answer observation →
  (is_failure observation ↔ answer_succeeds answer = false).
Proof.
  unfold observed. destruct (answer_succeeds answer).
  - intros (? & ? & _ & _ & Hdom).
    split; [|done]. intros H. by apply success_fields_no_error in Hdom.
  - intros [-> | ->]; split; try done; intros _; apply failure_markers_fail.
Qed.

(** ** The enrichment loop *)

Lemma fetch_weather_no_key (unique : list waypoint) (w : world) :
  fetch_weather "" provider str unique w =
  (Ok ((λ wp, entry_of wp not_configured) <$> unique), w).
Proof.
  induction unique as [|wp unique IH]; [done|].
  simpl. unfold io_bind. rewrite get_weather_data_no_key, IH. done.
Qed.

(** With a key, the loop gives one entry per waypoint, in order; the
    observation of the waypoint at index [j] is decided by the answer to
    the call number [j] of the loop, whatever the other answers are. *)
Lemma fetch_weather_configured (key : string) (unique : list waypoint) (w : world) :
  key ≠ "" →
  ∃ entries w',
    fetch_weather key provider str unique w = (Ok entries, w') ∧
    length entries = length unique ∧
    ∀ (j : nat) (wp : waypoint),
      unique !! j = Some wp →
      ∃ observation,
        entries !! j = Some (entry_of wp observation) ∧
        observed str
          (provider (length (calls w) + j)
                    (weather_request key (wp_lat wp) (wp_lon wp)))
          observation.
Proof.
  intros Hkey. revert w.
  induction unique as [|wp unique IH]; intros w.
  - exists [], w. repeat split. intros j wp Hj. by rewrite lookup_nil in Hj.
  - destruct (get_weather_data_configured key (wp_lat wp) (wp_lon wp) w Hkey)
      as (observation & Hget & Hobs).
    destruct (IH (add_call w (weather_request key (wp_lat wp) (wp_lon wp))))
      as (entries & w' & Hrest & Hlen & Hentries).
    exists (entry_of wp observation :: entries), w'.
    split; [|split].
    + simpl. unfold io_bind at 1. rewrite Hget.
      unfold io_bind at 1. rewrite Hrest. done.
    + simpl. by rewrite Hlen.
    + intros [|j] wp' Hj; simpl in Hj.
      * injection Hj as <-. exists observation. split; [done|].
        by rewrite Nat.add_0_r.
      * destruct (Hentries j wp' Hj) as (observation' & He & Hobs').
        exists observation'. split; [done|].
        simpl in Hobs'. rewrite length_app in Hobs'. simpl in Hobs'.
        by replace (length (calls w) + S j)%nat
          with (length (calls w) + 1 + j)%nat by lia.
Qed.

Lemma log_to_mongodb_total (query_data : log_data) (w : world) :
  ∃ w', log_to_mongodb db query_data w = (Ok (), w') ∧ calls w' = calls w.
Proof.
  unfold log_to_mongodb.
  destruct db as [insert_one|]; [|by eexists].
  destruct (insert_one query_data); by eexists.
Qed.

Lemma reduce_route_first_leg (legs : list route_leg) (unique : list waypoint) :
  reduce_route legs = Ok unique → ∃ leg, getitem legs 0 = Ok leg.
Proof.
  unfold reduce_route, extract_waypoints.
  destruct (getitem legs 0) as [leg|]; [eauto|done].
Qed.

(** Once the waypoints are reduced, the handler answers 200 with the
    entries of the enrichment loop, whatever they are. *)
Lemma route_weather_ok (key start_addr end_addr : string)
    (legs : list route_leg) (unique : list waypoint)
    (entries : list weather_entry) (w w1 : world) :
  reduce_route legs = Ok unique →
  fetch_weather key provider str unique w = (Ok entries, w1) →
  ∃ response_data w2,
    route_weather key provider str db start_addr end_addr legs w =
      ({| status := 200; reply := Payload response_data |}, w2) ∧
    success response_data = true ∧
    weather_data response_data = entries ∧
    calls w2 = calls w1.
Proof.
  intros Hreduce Hfetch.
  destruct (reduce_route_first_leg legs unique Hreduce) as [leg Hleg].
  unfold route_weather, route_weather_body.
  unfold io_bind at 1, lift at 1. rewrite Hreduce.
  unfold io_bind at 1. rewrite Hfetch.
  unfold io_bind at 1, lift at 1. rewrite Hleg.
  unfold io_bind at 1.
  match goal with
  | |- context [log_to_mongodb db ?q w1] =>
      destruct (log_to_mongodb_total q w1) as (w2 & -> & Hcalls)
  end.
  unfold io_ret. eexists _, w2. split; [reflexivity|]. done.
Qed.

(** A leg without steps anywhere in the route makes the handler answer
    500, before any weather is fetched. *)
Lemma extract_waypoints_no_steps (legs : list route_leg) (leg : route_leg) :
  leg ∈ legs → steps leg = [] → ∃ e, extract_waypoints legs = Raise e.
Proof.
  intros Hin Hsteps. unfold extract_waypoints.
  destruct (getitem legs 0); [|by eexists].
  destruct (for_each_raise sample_leg legs leg ValueError Hin
              (sample_leg_no_steps leg Hsteps)) as [e ->].
  by eexists.
Qed.

End WeatherProperties.

(** ** Counting observations *)

Lemma filter_none {A} (P : A → Prop) `{∀ x, Decision (P x)} (l : list A) :
  (∀ x, x ∈ l → ¬ P x) → filter P l = [].
Proof.
  induction l as [|x l IH]; intros Hl; [done|].
  rewrite filter_cons_False by (apply Hl; by left).
  apply IH. intros y Hy. apply Hl. by right.
Qed.

(** A property that holds at one index only selects one element. *)
Lemma filter_single_index {A} (P : A → Prop) `{∀ x, Decision (P x)}
    (l : list A) (i : nat) :
  (i < length l)%nat →
  (∀ j x, l !! j = Some x → P x ↔ j = i) →
  length (filter P l) = 1%nat.
Proof.
  revert i. induction l as [|a l IH]; intros i Hi Hall; [simpl in Hi; lia|].
  destruct i as [|i].
  - rewrite filter_cons_True by (by apply (Hall 0%nat a)).
    rewrite filter_none; [done|].
    intros x [j Hj]%list_elem_of_lookup HP.
    by apply (Hall (S j) x) in HP.
  - rewrite filter_cons_False.
    + apply (IH i); [simpl in Hi; lia|].
      intros j x Hj. rewrite (Hall (S j) x Hj). lia.
    + intros HP. by apply (Hall 0%nat a) in HP.
Qed.

Lemma filter_complement_length {A} (P : A → Prop) `{∀ x, Decision (P x)}
    (l : list A) :
  (length (filter P l) + length (filter (λ x, ¬ P x) l) = length l)%nat.
Proof. by rewrite <- length_app, filter_app_complement. Qed.

(** ** The handler *)

Section HandlerProperties.

Context (provider : nat → request → http_result).
Context (str : json → string).
Context (db : option (log_data → result unit)).

(** C5: when exactly one lookup of the reduced sequence fails, the
    enrichment loop still gives one entry per waypoint, in input order;
    exactly one entry carries a failure marker, the others carry the
    normalised answer to their own lookup, and the handler answers 200. *)
Theorem fetch_weather_isolates_failure (key start_addr end_addr : string)
    (legs : list route_leg) (unique : list waypoint) (w : world) (i : nat) :
  key ≠ "" →
  reduce_route legs = Ok unique →
  (i < length unique)%nat →
  (∀ (j : nat) (wp : waypoint),
     unique !! j = Some wp →
     answer_succeeds
       (provider (length (calls w) + j)
                 (weather_request key (wp_lat wp) (wp_lon wp)))
     = bool_decide (j ≠ i)) →
  ∃ entries w1 response_data w2,
    fetch_weather key provider str unique w = (Ok entries, w1) ∧
    length entries = length unique ∧
    (∀ (j : nat) (wp : waypoint),
       unique !! j = Some wp →
       ∃ observation,
         entries !! j = Some (entry_of wp observation) ∧
         observed str
           (provider (length (calls w) + j)
                     (weather_request key (wp_lat wp) (wp_lon wp)))
           observation ∧
         (is_failure observation ↔ j = i)) ∧
    length (filter (λ e, is_failure (weather e)) entries) = 1%nat ∧
    length (filter (λ e, ¬ is_failure (weather e)) entries)
      = (length unique - 1)%nat ∧
    route_weather key provider str db start_addr end_addr legs w =
      ({| status := 200; reply := Payload response_data |}, w2) ∧
    weather_data response_data = entries.
Proof.
  intros Hkey Hreduce Hi Hone.
  destruct (fetch_weather_configured provider str key unique w Hkey)
    as (entries & w1 & Hfetch & Hlen & Hentries).
  destruct (route_weather_ok provider str db key start_addr end_addr
              legs unique entries w w1 Hreduce Hfetch)
    as (response_data & w2 & Hroute & _ & Hdata & _).
  assert (∀ (j : nat) (wp : waypoint),
            unique !! j = Some wp →
            ∃ observation,
              entries !! j = Some (entry_of wp observation) ∧
              observed str
                (provider (length (calls w) + j)
                          (weather_request key (wp_lat wp) (wp_lon wp)))
                observation ∧
              (is_failure observation ↔ j = i)) as Hshape.
  { intros j wp Hj.
    destruct (Hentries j wp Hj) as (observation & He & Hobs).
    exists observation. split; [done|]. split; [done|].
    rewrite (observed_failure str _ _ Hobs), (Hone j wp Hj).
    rewrite bool_decide_eq_false. destruct (decide (j = i)); tauto. }
  assert (length (filter (λ e, is_failure (weather e)) entries) = 1%nat) as Hcount.
  { apply (filter_single_index _ entries i); [lia|].
    intros j e He.
    destruct (lookup_lt_is_Some_2 unique j) as [wp Hwp].
    { rewrite <- Hlen. by eapply lookup_lt_Some. }
    destruct (Hshape j wp Hwp) as (observation & He' & _ & Hfail).
    rewrite He in He'. injection He' as ->. done. }
  exists entries, w1, response_data, w2.
  split; [done|]. split; [done|]. split; [exact Hshape|].
  split; [done|]. split; [|done].
  pose proof (filter_complement_length
                (λ e, is_failure (weather e)) entries). lia.
Qed.

(** C6: without the weather credential every lookup returns the same
    "not configured" marker and issues no request, so every observation
    of the response carries that marker and no call is recorded. *)
Theorem no_key_not_configured (lat lon : Q) (start_addr end_addr : string)
    (legs : list route_leg) (unique : list waypoint) (w : world) :
  get_weather_data "" provider str lat lon w = (Ok not_configured, w) ∧
  fetch_weather "" provider str unique w =
    (Ok ((λ wp, entry_of wp not_configured) <$> unique), w) ∧
  ∃ rep w',
    route_weather "" provider str db start_addr end_addr legs w = (rep, w') ∧
    calls w' = calls w ∧
    ∀ response_data e,
      reply rep = Payload response_data →
      e ∈ weather_data response_data →
      weather e = not_configured.
Proof.
  split; [apply get_weather_data_no_key|].
  split; [apply fetch_weather_no_key|].
  destruct (reduce_route legs) as [reduced|exc] eqn:Hreduce.
  - destruct (route_weather_ok provider str db "" start_addr end_addr legs
                reduced _ w w Hreduce (fetch_weather_no_key provider str reduced w))
      as (response_data & w2 & Hroute & _ & Hdata & Hcalls).
    eexists _, w2. split; [exact Hroute|]. split; [done|].
    simpl. intros ? e [= <-]. rewrite Hdata.
    by intros (wp & -> & _)%list_elem_of_fmap.
  - eexists _, w. split; [|split; [done|]].
    + unfold route_weather, route_weather_body, io_bind, lift.
      rewrite Hreduce. reflexivity.
    + simpl. intros ? ? [=].
Qed.

(** C7, the claim as stated, fails: the "not configured" observation has
    the key [error] together with [temperature], [conditions] and
    [description], which are keys of a successful reading. *)
Lemma failure_marker_mixes_shapes :
  ¬ ∀ (key : string) (lat lon : Q) (w w' : world)
      (observation : gmap string json),
      get_weather_data key sample_provider sample_str lat lon w
        = (Ok observation, w') →
      ¬ mixes_shapes observation.
Proof.
  intros H.
  apply (H "" 0%Q 0%Q fresh_world fresh_world not_configured); [done|].
  split; [by vm_compute|].
  exists "temperature". split; by vm_compute.
Qed.

(** C7, amended: every observation has exactly one of two shapes, told
    apart by the key [error].  A successful reading has the keys
    temperature, conditions, description, humidity and wind_speed and no
    [error]; a failure marker is one of the three failure dictionaries,
    which carry [error] together with the placeholders
    [temperature = 'N/A'] and [conditions], and never humidity or
    wind_speed. *)
Theorem observation_shapes (key : string) (lat lon : Q) (w : world) :
  ∃ observation w',
    get_weather_data key provider str lat lon w = (Ok observation, w') ∧
    ((dom observation = success_fields ∧ ¬ is_failure observation) ∨
     (is_failure observation ∧
      observation ∈ [not_configured; fetch_failed; process_failed] ∧
      observation !! "temperature" = Some (JString "N/A") ∧
      is_Some (observation !! "conditions") ∧
      ("humidity" ∉ dom observation) ∧
      "wind_speed" ∉ dom observation)).
Proof.
  assert (∀ observation,
            observation ∈ [not_configured; fetch_failed; process_failed] →
            is_failure observation ∧
            observation ∈ [not_configured; fetch_failed; process_failed] ∧
            observation !! "temperature" = Some (JString "N/A") ∧
            is_Some (observation !! "conditions") ∧
            ("humidity" ∉ dom observation) ∧
            "wind_speed" ∉ dom observation) as Hmarker.
  { intros observation Hin. split; [|split; [done|]].
    - rewrite !elem_of_cons in Hin.
      destruct Hin as [-> | [-> | [-> | []%elem_of_nil]]];
        apply failure_markers_fail.
    - rewrite !elem_of_cons in Hin.
      destruct Hin as [-> | [-> | [-> | []%elem_of_nil]]];
        (split; [done|]); (split; [by eexists|]);
        split; apply (bool_decide_eq_false _); by vm_compute. }
  destruct (decide (key = "")) as [-> | Hkey].
  - exists not_configured, w. split; [done|]. right.
    apply Hmarker. by left.
  - destruct (get_weather_data_configured provider str key lat lon w Hkey)
      as (observation & Hget & Hobs).
    eexists observation, _. split; [exact Hget|].
    unfold observed in Hobs.
    destruct (answer_succeeds _).
    + destruct Hobs as (? & ? & _ & _ & Hdom). left.
      split; [done|]. by apply success_fields_no_error.
    + right. apply Hmarker.
      destruct Hobs as [-> | ->]; [by right; left|by right; right; left].
Qed.

(** C8 at its failing inputs: a leg without steps makes the sampling loop
    raise [ValueError] (the interval is zero), and the handler answers
    500 for the whole route, before any weather is fetched. *)
Theorem route_weather_empty_leg (key start_addr end_addr : string)
    (legs : list route_leg) (leg : route_leg) (w : world) :
  leg ∈ legs →
  steps leg = [] →
  sample_leg leg = Raise ValueError ∧
  route_weather key provider str db start_addr end_addr legs w =
    ({| status := 500;
        reply := ErrorBody "Internal server error. Please try again later." |}, w).
Proof.
  intros Hin Hsteps. split; [by apply sample_leg_no_steps|].
  destruct (extract_waypoints_no_steps legs leg Hin Hsteps) as [e He].
  unfold route_weather, route_weather_body, io_bind, lift, reduce_route.
  by rewrite He.
Qed.

(** C10: [get_weather_data] returns a dictionary for every input and
    every answer of the provider, and never raises; the dictionary has
    the key [error] exactly when the lookup did not succeed, that is
    unless a key is configured and the provider answered with a
    non-error status and a well-formed body. *)
Theorem get_weather_data_total (key : string) (lat lon : Q) (w : world) :
  ∃ observation w',
    get_weather_data key provider str lat lon w = (Ok observation, w') ∧
    (is_failure observation ↔
     ¬ (key ≠ "" ∧
        answer_succeeds
          (provider (length (calls w)) (weather_request key lat lon)) = true)).
Proof.
  destruct (decide (key = "")) as [-> | Hkey].
  - exists not_configured, w. split; [done|].
    split; [intros _ [? _]; done|]. intros _. apply failure_markers_fail.
  - destruct (get_weather_data_configured provider str key lat lon w Hkey)
      as (observation & Hget & Hobs).
    eexists observation, _. split; [exact Hget|].
    rewrite (observed_failure str _ _ Hobs).
    destruct (answer_succeeds _); split; try done; intros H.
    + exfalso. by apply H.
    + by intros [_ ?].
Qed.

End HandlerProperties.

(** ** Instances on concrete routes *)

Lemma fetch_weather_isolates_failure_witness :
  ∃ entries w1 response_data w2,
    fetch_weather "key" sample_provider sample_str sample_unique fresh_world
      = (Ok entries, w1) ∧
    length entries = length sample_unique ∧
    (∀ (j : nat) (wp : waypoint),
       sample_unique !! j = Some wp →
       ∃ observation,
         entries !! j = Some (entry_of wp observation) ∧
         observed sample_str
           (sample_provider (length (calls fresh_world) + j)
              (weather_request "key" (wp_lat wp) (wp_lon wp)))
           observation ∧
         (is_failure observation ↔ j = 1%nat)) ∧
    length (filter (λ e, is_failure (weather e)) entries) = 1%nat ∧
    length (filter (λ e, ¬ is_failure (weather e)) entries)
      = (length sample_unique - 1)%nat ∧
    route_weather "key" sample_provider sample_str None "A" "B"
      [leg_of_steps 1] fresh_world =
      ({| status := 200; reply := Payload response_data |}, w2) ∧
    weather_data response_data = entries.
Proof.
  apply (fetch_weather_isolates_failure sample_provider sample_str None
           "key" "A" "B" [leg_of_steps 1] sample_unique fresh_world 1).
  - discriminate.
  - by vm_compute.
  - simpl. lia.
  - intros [|[|[|j]]] wp Hj; simpl in Hj; by try discriminate.
Defined.

Lemma route_weather_empty_leg_witness :
  sample_leg (leg_of_steps 0) = Raise ValueError ∧
  route_weather "key" sample_provider sample_str None "A" "B"
    [leg_of_steps 3; leg_of_steps 0] fresh_world =
    ({| status := 500;
        reply := ErrorBody "Internal server error. Please try again later." |},
     fresh_world).
Proof.
  apply (route_weather_empty_leg sample_provider sample_str None
           "key" "A" "B" [leg_of_steps 3; leg_of_steps 0] (leg_of_steps 0)
           fresh_world).
  - right. left.
  - reflexivity.
Defined.

(** * Further properties of the pipeline *)

(** ** Sampling, for any leg *)

Lemma step_interval_positive (n : Z) : 0 < n → 0 < step_interval n.
Proof.
  intros Hn. destruct (Z.le_gt_cases n 5) as [Hle|Hgt].
  - rewrite step_interval_short by done. done.
  - destruct (step_interval_long n Hgt) as [-> ?]. lia.
Qed.

Lemma steps_nonempty_len (leg : route_leg) : steps leg ≠ [] ↔ 0 < len (steps leg).
Proof.
  unfold len. destruct (steps leg); simpl; split; try done; try lia.
Qed.

Lemma sample_leg_is_ok (leg : route_leg) :
  is_ok (sample_leg leg) = true ↔ steps leg ≠ [].
Proof.
  destruct (decide (steps leg = [])) as [Hnil|Hne].
  - by rewrite (sample_leg_no_steps leg Hnil).
  - pose proof (proj1 (steps_nonempty_len leg) Hne) as Hlen.
    destruct (sample_leg_positive leg Hlen (step_interval_positive _ Hlen))
      as (ws & -> & _).
    done.
Qed.

Lemma sample_leg_count (leg : route_leg) (ws : list waypoint) :
  sample_leg leg = Ok ws → 1 ≤ len ws ≤ 9.
Proof.
  intros Hws.
  assert (steps leg ≠ []) as Hne by (apply sample_leg_is_ok; by rewrite Hws).
  pose proof (proj1 (steps_nonempty_len leg) Hne) as Hlen.
  destruct (sample_leg_positive leg Hlen (step_interval_positive _ Hlen))
    as (ws' & Hws' & Hcount & _).
  rewrite Hws in Hws'. injection Hws' as <-. rewrite Hcount.
  destruct (Z.le_gt_cases (len (steps leg)) 5) as [Hle|Hgt].
  - rewrite step_interval_short by done.
    rewrite Z.div_small by lia. lia.
  - destruct (step_interval_long _ Hgt) as [-> _].
    destruct (sampled_count_bounds _ Hgt) as [_ ?]. lia.
Qed.

(** The sampling loop fails exactly on a leg without steps, and then with
    the [ValueError] of [range]. *)
Theorem sample_leg_ok_iff (leg : route_leg) :
  (sample_leg leg = Raise ValueError ↔ steps leg = []) ∧
  (is_ok (sample_leg leg) = true ↔ steps leg ≠ []).
Proof.
  destruct (decide (steps leg = [])) as [Hnil|Hne].
  - rewrite (sample_leg_no_steps leg Hnil). simpl. split; split; done.
  - pose proof (proj1 (steps_nonempty_len leg) Hne) as Hlen.
    destruct (sample_leg_positive leg Hlen (step_interval_positive _ Hlen))
      as (ws & -> & _).
    simpl. split; split; done.
Qed.

(** The waypoints sampled from a leg with steps: between 1 and 9 of them,
    the first one is the end of the first step, and they follow the order
    of the steps. *)
Theorem sample_leg_subsequence (leg : route_leg) :
  steps leg ≠ [] →
  ∃ ws,
    sample_leg leg = Ok ws ∧
    ws `sublist_of` (step_waypoint <$> steps leg) ∧
    head ws = step_waypoint <$> head (steps leg) ∧
    1 ≤ len ws ≤ 9.
Proof.
  intros Hne.
  pose proof (proj1 (steps_nonempty_len leg) Hne) as Hlen.
  pose proof (step_interval_positive _ Hlen) as Hint.
  destruct (sample_leg_positive leg Hlen Hint) as (ws & Hws & Hcount & Hk).
  exists ws. split; [done|].
  assert (1 ≤ len ws ≤ 9) as Hbounds.
  { rewrite Hcount. destruct (Z.le_gt_cases (len (steps leg)) 5) as [Hle|Hgt].
    - rewrite step_interval_short by done.
      rewrite Z.div_small by lia. lia.
    - destruct (step_interval_long _ Hgt) as [-> _].
      destruct (sampled_count_bounds _ Hgt) as [_ ?]. lia. }
  split; [|split; [|done]].
  - change (step_waypoint <$> steps leg)
      with (drop (Z.to_nat 0) (step_waypoint <$> steps leg)).
    apply (progression_sublist _ 0 (step_interval (len (steps leg)))
             (length ws)); [done|done|].
    apply Forall2_same_length_lookup_2.
    + by rewrite length_fmap, length_seq.
    + intros k j w Hj Hw.
      rewrite list_lookup_fmap in Hj.
      pose proof (lookup_lt_Some _ _ _ Hw) as Hlt.
      rewrite lookup_seq_lt in Hj by done. simpl in Hj. injection Hj as <-.
      rewrite list_lookup_fmap, Z.add_0_l, <- Hk by done. done.
  - rewrite !head_lookup. apply (Hk 0%nat). unfold len in Hbounds. lia.
Qed.

Lemma sample_leg_subsequence_witness :
  ∃ ws,
    sample_leg (leg_of_steps 14) = Ok ws ∧
    ws `sublist_of` (step_waypoint <$> steps (leg_of_steps 14)) ∧
    head ws = step_waypoint <$> head (steps (leg_of_steps 14)) ∧
    1 ≤ len ws ≤ 9.
Proof. apply (sample_leg_subsequence (leg_of_steps 14)). discriminate. Defined.

(** ** Extraction of the candidates *)

Lemma getitem_first {A} (l : list A) :
  getitem l 0 = match head l with Some x => Ok x | None => Raise IndexError end.
Proof. by destruct l. Qed.

Lemma getitem_minus_one {A} (l : list A) :
  getitem l (-1) = match last l with Some x => Ok x | None => Raise IndexError end.
Proof.
  destruct l as [|x l _] using rev_ind; [done|].
  by rewrite getitem_last_ok, last_snoc.
Qed.

Lemma for_each_ok_iff {A B} (f : A → result B) (xs : list A) :
  is_ok (for_each f xs) = true ↔ Forall (λ x, is_ok (f x) = true) xs.
Proof.
  induction xs as [|x xs IH]; simpl; [split; [constructor|done]|].
  rewrite Forall_cons, <- IH.
  unfold mbind, result_bind.
  destruct (f x); simpl; [|split; [done|by intros []]].
  destruct (for_each f xs); simpl; split; try done; by intros [].
Qed.

Lemma extract_waypoints_is_ok (legs : list route_leg) :
  is_ok (extract_waypoints legs) = true ↔
  legs ≠ [] ∧ Forall (λ leg, steps leg ≠ []) legs.
Proof.
  assert (Forall (λ leg, steps leg ≠ []) legs ↔
          is_ok (for_each sample_leg legs) = true) as ->.
  { rewrite for_each_ok_iff. apply Forall_proper; [|done].
    intros leg. by rewrite sample_leg_is_ok. }
  unfold extract_waypoints. rewrite getitem_first, getitem_minus_one.
  destruct legs as [|leg legs]; simpl; [split; [done|by intros []]|].
  unfold mbind, result_bind.
  change (match sample_leg leg with
          | Ok a => match for_each sample_leg legs with
                    | Ok a0 => Ok (a :: a0)
                    | Raise e => Raise e
                    end
          | Raise e => Raise e
          end) with (for_each sample_leg (leg :: legs)).
  destruct (for_each sample_leg (leg :: legs)); simpl.
  - destruct (last_is_Some (leg :: legs)) as [_ [x ->]]; [done|].
    split; done.
  - split; [done|by intros []].
Qed.

Lemma sample_leg_raises (leg : route_leg) (e : exn) :
  sample_leg leg = Raise e → e = ValueError.
Proof.
  intros Hraise.
  destruct (decide (steps leg = [])) as [Hnil|Hne].
  - rewrite (sample_leg_no_steps leg Hnil) in Hraise. congruence.
  - apply sample_leg_is_ok in Hne. by rewrite Hraise in Hne.
Qed.

Lemma for_each_sample_leg_raises (legs : list route_leg) (e : exn) :
  for_each sample_leg legs = Raise e → e = ValueError.
Proof.
  induction legs as [|leg legs IH]; [done|].
  simpl. unfold mbind, result_bind.
  destruct (sample_leg leg) eqn:Hleg.
  - destruct (for_each sample_leg legs); [done|].
    intros [= <-]. by apply IH.
  - intros [= <-]. by apply sample_leg_raises in Hleg.
Qed.

(** The candidates can be extracted exactly from a route with at least one
    leg, all of whose legs have at least one step.  A route without legs
    raises [IndexError]; a leg without steps raises [ValueError]. *)
Theorem extract_waypoints_ok_iff (legs : list route_leg) :
  (is_ok (extract_waypoints legs) = true ↔
   legs ≠ [] ∧ Forall (λ leg, steps leg ≠ []) legs) ∧
  (legs = [] → extract_waypoints legs = Raise IndexError) ∧
  (legs ≠ [] → ¬ Forall (λ leg, steps leg ≠ []) legs →
   extract_waypoints legs = Raise ValueError).
Proof.
  split; [apply extract_waypoints_is_ok|]. split; [by intros ->|].
  intros Hne Hsteps.
  assert (is_ok (extract_waypoints legs) = false) as Hfail.
  { apply not_true_is_false. rewrite extract_waypoints_is_ok. tauto. }
  unfold extract_waypoints in *. rewrite getitem_first, getitem_minus_one in *.
  destruct legs as [|leg legs]; [done|]. cbn [head] in *.
  unfold mbind at 1, result_bind at 1. unfold mbind at 1, result_bind at 1 in Hfail.
  destruct (for_each sample_leg (leg :: legs)) as [sampled|e] eqn:Hsampled.
  - exfalso. unfold mbind at 1, result_bind at 1 in Hfail.
    destruct (last_is_Some (leg :: legs)) as [_ [x Hx]]; [done|].
    by rewrite Hx in Hfail.
  - unfold mbind, result_bind.
    by apply for_each_sample_leg_raises in Hsampled as ->.
Qed.

Lemma concat_sampled_length (legs : list route_leg) (sampled : list (list waypoint)) :
  Forall2 (λ leg ws, sample_leg leg = Ok ws) legs sampled →
  len legs ≤ len (concat sampled) ≤ 9 * len legs.
Proof.
  induction 1 as [|leg ws legs sampled Hleg _ IH]; [done|].
  pose proof (sample_leg_count leg ws Hleg) as Hb.
  simpl. unfold len in *. rewrite length_app. simpl. lia.
Qed.

Lemma extract_waypoints_head (legs : list route_leg) (waypoints : list waypoint) :
  extract_waypoints legs = Ok waypoints →
  ∃ first_leg rest,
    head legs = Some first_leg ∧ waypoints = start_waypoint first_leg :: rest.
Proof.
  unfold extract_waypoints. rewrite getitem_first.
  destruct (head legs) as [first_leg|]; [|done].
  unfold mbind at 1, result_bind at 1.
  destruct (for_each sample_leg legs); [|done].
  unfold mbind at 1, result_bind at 1.
  destruct (getitem legs (-1)); [|done].
  intros [= <-]. by eexists _, _.
Qed.

(** The candidates of a route: the start of the first leg, then the
    sampled steps (between one and nine per leg), then the end of the last
    leg. *)
Theorem extract_waypoints_shape (legs : list route_leg) (waypoints : list waypoint) :
  extract_waypoints legs = Ok waypoints →
  ∃ first_leg last_leg sampled,
    head legs = Some first_leg ∧
    last legs = Some last_leg ∧
    Forall2 (λ leg ws, sample_leg leg = Ok ws) legs sampled ∧
    waypoints =
      start_waypoint first_leg :: concat sampled ++ [end_waypoint last_leg] ∧
    len legs + 2 ≤ len waypoints ≤ 9 * len legs + 2.
Proof.
  unfold extract_waypoints. rewrite getitem_first, getitem_minus_one.
  destruct (head legs) as [first_leg|]; [|done].
  unfold mbind at 1, result_bind at 1.
  destruct (for_each sample_leg legs) as [sampled|] eqn:Hsampled; [|done].
  unfold mbind at 1, result_bind at 1.
  destruct (last legs) as [last_leg|]; [|done].
  intros [= <-].
  apply for_each_Forall2 in Hsampled.
  exists first_leg, last_leg, sampled. repeat split; try done.
  - pose proof (concat_sampled_length legs sampled Hsampled).
    unfold len in *. simpl. rewrite length_app. simpl. lia.
  - pose proof (concat_sampled_length legs sampled Hsampled).
    unfold len in *. simpl. rewrite length_app. simpl. lia.
Qed.

Lemma extract_waypoints_shape_witness :
  ∃ first_leg last_leg sampled,
    head [leg_of_steps 3; leg_of_steps 8] = Some first_leg ∧
    last [leg_of_steps 3; leg_of_steps 8] = Some last_leg ∧
    Forall2 (λ leg ws, sample_leg leg = Ok ws)
      [leg_of_steps 3; leg_of_steps 8] sampled ∧
    start_waypoint (leg_of_steps 3)
      :: (step_waypoint <$> (step_at 1 :: steps (leg_of_steps 8)))
         ++ [end_waypoint (leg_of_steps 8)] =
      start_waypoint first_leg :: concat sampled ++ [end_waypoint last_leg] ∧
    len [leg_of_steps 3; leg_of_steps 8] + 2
      ≤ len (start_waypoint (leg_of_steps 3)
               :: (step_waypoint <$> (step_at 1 :: steps (leg_of_steps 8)))
                  ++ [end_waypoint (leg_of_steps 8)])
      ≤ 9 * len [leg_of_steps 3; leg_of_steps 8] + 2.
Proof.
  apply (extract_waypoints_shape [leg_of_steps 3; leg_of_steps 8]).
  by vm_compute.
Defined.

(** ** Removal of duplicates, further *)

Lemma remove_duplicates_nil_iff (waypoints : list waypoint) :
  remove_duplicates waypoints = [] ↔ waypoints = [].
Proof.
  split; [|by intros ->].
  destruct waypoints as [|wp waypoints]; [done|]. intros Hnil.
  pose proof (proj2 (remove_duplicates_keys (wp :: waypoints) (coord_key wp))) as H.
  rewrite Hnil in H. exfalso.
  eapply not_elem_of_nil, H. simpl. left.
Qed.

Lemma remove_duplicates_NoDup_id (waypoints : list waypoint) :
  NoDup (coord_key <$> waypoints) → remove_duplicates waypoints = waypoints.
Proof.
  induction waypoints as [|wp waypoints IH] using rev_ind; [done|].
  rewrite fmap_app. intros (Hdup & Hnew & _)%NoDup_app.
  rewrite remove_duplicates_snoc, IH by done.
  rewrite decide_False; [done|].
  intros Hin. apply (Hnew _ Hin). simpl. left.
Qed.

Lemma remove_duplicates_head (waypoints : list waypoint) :
  head (remove_duplicates waypoints) = head waypoints.
Proof.
  induction waypoints as [|wp waypoints IH] using rev_ind; [done|].
  rewrite remove_duplicates_snoc.
  destruct waypoints as [|first_wp waypoints]; [done|].
  assert (remove_duplicates (first_wp :: waypoints) ≠ []) as Hne
    by (by rewrite remove_duplicates_nil_iff).
  case_decide; [done|].
  destruct (remove_duplicates (first_wp :: waypoints)); [done|].
  simpl in *. done.
Qed.

(** The pass changes nothing exactly when the keys of the input are
    pairwise distinct. *)
Theorem remove_duplicates_id_iff (waypoints : list waypoint) :
  remove_duplicates waypoints = waypoints ↔ NoDup (coord_key <$> waypoints).
Proof.
  split.
  - intros <-. apply remove_duplicates_keys_NoDup.
  - apply remove_duplicates_NoDup_id.
Qed.

(** Running the pass twice is the same as running it once, the first
    waypoint of the input is always kept, and nothing is added. *)
Theorem remove_duplicates_idempotent (waypoints : list waypoint) :
  remove_duplicates (remove_duplicates waypoints) = remove_duplicates waypoints ∧
  head (remove_duplicates waypoints) = head waypoints ∧
  len (remove_duplicates waypoints) ≤ len waypoints.
Proof.
  split; [|split].
  - apply remove_duplicates_NoDup_id, remove_duplicates_keys_NoDup.
  - apply remove_duplicates_head.
  - pose proof (sublist_length _ _ (remove_duplicates_sublist waypoints)).
    unfold len. lia.
Qed.

(** ** Limiting, for any input *)

Lemma limit_waypoints_kept (unique : list waypoint) :
  ∃ limited,
    limit_waypoints unique = Ok limited ∧
    limited `sublist_of` unique ∧
    head limited = head unique ∧
    Z.min (len unique) 10 ≤ len limited ≤ 17.
Proof.
  destruct (Z.le_gt_cases (len unique) 10) as [Hle|Hgt].
  - exists unique. rewrite limit_waypoints_at_most_ten by done.
    repeat split; try done; lia.
  - destruct (limit_waypoints_long unique ltac:(lia))
      as (first & middle & last_wp & Hlimit & Hhead & _ & Hsub & _ & _ & Hb).
    exists (first :: middle ++ [last_wp]). split; [done|]. split; [done|].
    split; [by rewrite Hhead|].
    unfold len in *. simpl. rewrite length_app. simpl. lia.
Qed.

(** The limiting block never raises; its output keeps the order, the first
    and the last waypoint of its input, and has at most 17 waypoints (and
    at least 10 when the input has more than 10). *)
Theorem limit_waypoints_total (unique : list waypoint) :
  ∃ limited,
    limit_waypoints unique = Ok limited ∧
    limited `sublist_of` unique ∧
    head limited = head unique ∧
    last limited = last unique ∧
    Z.min (len unique) 10 ≤ len limited ≤ 17.
Proof.
  destruct (Z.le_gt_cases (len unique) 10) as [Hle|Hgt].
  - exists unique. rewrite limit_waypoints_at_most_ten by done.
    repeat split; try done; lia.
  - destruct (limit_waypoints_long unique ltac:(lia))
      as (first & middle & last_wp & Hlimit & Hhead & Hlast & Hsub & _ & _ & Hb).
    exists (first :: middle ++ [last_wp]). split; [done|]. split; [done|].
    split; [by rewrite Hhead|]. split; [|split].
    + by rewrite Hlast, app_comm_cons, last_snoc.
    + unfold len in *. simpl. rewrite length_app. simpl. lia.
    + unfold len in *. simpl. rewrite length_app. simpl. lia.
Qed.

(** Limiting twice is the same as limiting once, for every input. *)
Theorem limit_waypoints_idempotent (unique : list waypoint) :
  (limit_waypoints unique ≫= limit_waypoints) = limit_waypoints unique.
Proof.
  destruct (limit_waypoints_kept unique) as (limited & Hlimit & _ & _ & Hb).
  rewrite Hlimit. unfold mbind, result_bind.
  destruct (Z.le_gt_cases (len limited) 10).
  - by apply limit_waypoints_at_most_ten.
  - apply limit_waypoints_step_one. lia.
Qed.

(** ** The reduced waypoints of a route *)

(** The reduction fails exactly when the candidates cannot be extracted. *)
Lemma reduce_route_ok_iff (legs : list route_leg) :
  is_ok (reduce_route legs) = true ↔
  legs ≠ [] ∧ Forall (λ leg, steps leg ≠ []) legs.
Proof.
  rewrite <- extract_waypoints_is_ok. unfold reduce_route.
  destruct (extract_waypoints legs) as [waypoints|]; [|done].
  unfold mbind, result_bind.
  destruct (limit_waypoints_kept (remove_duplicates waypoints))
    as (limited & -> & _). done.
Qed.

Lemma reduce_route_bounds (legs : list route_leg) (unique : list waypoint) :
  reduce_route legs = Ok unique →
  (∃ first_leg, head legs = Some first_leg) ∧ 1 ≤ len unique ≤ 17.
Proof.
  unfold reduce_route.
  destruct (extract_waypoints legs) as [candidates|] eqn:Hextract; [|done].
  unfold mbind, result_bind. intros Hlimit.
  destruct (extract_waypoints_head legs candidates Hextract)
    as (first_leg & rest & Hfirst & Hshape).
  destruct (limit_waypoints_kept (remove_duplicates candidates))
    as (limited & Hlimited & _ & _ & Hb).
  rewrite Hlimit in Hlimited. injection Hlimited as <-.
  split; [eauto|]. split; [|lia].
  assert (remove_duplicates candidates ≠ []) as Hne.
  { rewrite remove_duplicates_nil_iff, Hshape. done. }
  assert (0 < len (remove_duplicates candidates)).
  { unfold len. destruct (remove_duplicates candidates); [done|simpl; lia]. }
  lia.
Qed.

(** The waypoints the weather is fetched for: between 1 and 17, with
    pairwise distinct keys, taken in order from the candidates, and
    starting with the start of the route. *)
Theorem reduce_route_invariants (legs : list route_leg) (unique : list waypoint) :
  reduce_route legs = Ok unique →
  ∃ first_leg candidates,
    head legs = Some first_leg ∧
    extract_waypoints legs = Ok candidates ∧
    unique `sublist_of` candidates ∧
    NoDup (coord_key <$> unique) ∧
    head unique = Some (start_waypoint first_leg) ∧
    1 ≤ len unique ≤ 17.
Proof.
  intros Hreduce.
  destruct (reduce_route_bounds legs unique Hreduce) as [_ Hb].
  revert Hreduce. unfold reduce_route.
  destruct (extract_waypoints legs) as [candidates|] eqn:Hextract; [|done].
  unfold mbind, result_bind. intros Hlimit.
  destruct (extract_waypoints_head legs candidates Hextract)
    as (first_leg & rest & Hfirst & Hshape).
  destruct (limit_waypoints_kept (remove_duplicates candidates))
    as (limited & Hlimited & Hsub & Hhead & _).
  rewrite Hlimit in Hlimited. injection Hlimited as <-.
  exists first_leg, candidates. split; [done|]. split; [done|].
  split; [|split; [|split; [|done]]].
  - etrans; [exact Hsub|apply remove_duplicates_sublist].
  - eapply sublist_NoDup; [apply (remove_duplicates_keys_NoDup candidates)|].
    by apply fmap_sublist.
  - rewrite Hhead, remove_duplicates_head, Hshape. done.
Qed.

Lemma reduce_route_invariants_witness :
  ∃ first_leg candidates,
    head [leg_of_steps 1] = Some first_leg ∧
    extract_waypoints [leg_of_steps 1] = Ok candidates ∧
    sample_unique `sublist_of` candidates ∧
    NoDup (coord_key <$> sample_unique) ∧
    head sample_unique = Some (start_waypoint first_leg) ∧
    1 ≤ len sample_unique ≤ 17.
Proof.
  apply (reduce_route_invariants [leg_of_steps 1] sample_unique).
  by vm_compute.
Defined.

(** * Further properties of the weather lookup and of the handler *)

Lemma getitem_raises {A} (l : list A) (i : Z) (e : exn) :
  getitem l i = Raise e → e = IndexError.
Proof.
  unfold getitem. destruct (_ <? 0); [congruence|].
  destruct (l !! _); congruence.
Qed.

Lemma json_getitem_raises (v : json) (k : subscript) (e : exn) :
  json_getitem v k = Raise e → isinstance e CRequestException = false.
Proof.
  destruct v as [| | |s|items|members], k as [key|i]; simpl;
    try (by intros [= <-]).
  - unfold mbind, result_bind.
    destruct (getitem _ i) eqn:Hget; [done|].
    apply getitem_raises in Hget as ->. by intros [= <-].
  - intros ->%getitem_raises. done.
  - destruct (members !! key); [done|]. by intros [= <-].
Qed.

Lemma json_path_raises (v : json) (ks : list subscript) (e : exn) :
  json_path v ks = Raise e → isinstance e CRequestException = false.
Proof.
  unfold json_path.
  induction ks as [|k ks IH] using rev_ind; [done|].
  rewrite foldl_app. simpl. unfold mbind at 1, result_bind at 1.
  destruct (foldl _ (Ok v) ks) as [x|e'].
  - apply json_getitem_raises.
  - intros [= ->]. by apply IH.
Qed.

Section LookupProperties.

Context (provider : nat → request → http_result).
Context (str : json → string).

Lemma normalize_raises (data : json) (e : exn) :
  normalize str data = Raise e → isinstance e CRequestException = false.
Proof.
  unfold normalize, mbind, result_bind.
  destruct (json_path data [Key "main"; Key "temp"]) eqn:H1;
    [|intros [= <-]; by eapply json_path_raises].
  destruct (json_path data [Key "weather"; Index 0; Key "main"]) eqn:H2;
    [|intros [= <-]; by eapply json_path_raises].
  destruct (json_path data [Key "weather"; Index 0; Key "description"]) eqn:H3;
    [|intros [= <-]; by eapply json_path_raises].
  destruct (json_path data [Key "main"; Key "humidity"]) eqn:H4;
    [|intros [= <-]; by eapply json_path_raises].
  destruct (json_path data [Key "wind"; Key "speed"]) eqn:H5;
    [|intros [= <-]; by eapply json_path_raises].
  done.
Qed.

(** Which failure dictionary a failed lookup gives: an HTTP error status
    or a [requests] exception gives "Unable to fetch weather data",
    whatever the body holds; an accepted status with a decoded body that
    lacks an item gives "Unable to process weather data". *)
Theorem get_weather_data_failure_kind (key : string) (lat lon : Q) (w : world) :
  key ≠ "" →
  let answer := provider (length (calls w)) (weather_request key lat lon) in
  let observation := (get_weather_data key provider str lat lon w).1 in
  (answer = NoResponse RequestException → observation = Ok fetch_failed) ∧
  (∀ status_code body,
     answer = Response status_code body →
     400 ≤ status_code < 600 →
     observation = Ok fetch_failed) ∧
  (∀ status_code data,
     answer = Response status_code (Ok data) →
     ¬ (400 ≤ status_code < 600) →
     well_formed data = false →
     observation = Ok process_failed).
Proof.
  intros Hkey answer observation. unfold observation, get_weather_data.
  rewrite decide_False by done.
  unfold try_io, io_bind, requests_get, lift. fold answer.
  split; [|split].
  - intros ->. done.
  - intros status_code body -> Hstatus. unfold raise_for_status. cbn [fst snd].
    destruct (Z.leb_spec 400 status_code); [|lia].
    destruct (Z.ltb_spec status_code 600); [|lia]. done.
  - intros status_code data -> Hstatus Hwf. unfold raise_for_status. cbn [fst snd].
    destruct (normalize_ill_formed str data Hwf) as [e He].
    pose proof (normalize_raises data e He) as Hclass.
    destruct (Z.leb_spec 400 status_code); destruct (Z.ltb_spec status_code 600);
      try lia; cbn -[normalize try_except];
      rewrite He, weather_handlers_total, Hclass; done.
Qed.

(** The requests the enrichment loop sends for a list of waypoints. *)
Lemma fetch_weather_effects (key : string) (unique : list waypoint) (w : world) :
  ∃ entries w',
    fetch_weather key provider str unique w = (Ok entries, w') ∧
    Forall2 (λ wp e, ∃ observation, e = entry_of wp observation) unique entries ∧
    calls w' =
      calls w ++
      (if decide (key = "") then []
       else (λ wp, weather_request key (wp_lat wp) (wp_lon wp)) <$> unique) ∧
    query_logs w' = query_logs w.
Proof.
  destruct (decide (key = "")) as [-> | Hkey].
  - exists ((λ wp, entry_of wp not_configured) <$> unique), w.
    rewrite fetch_weather_no_key, app_nil_r. repeat split; try done.
    apply Forall2_fmap_r, Forall_Forall2_diag, Forall_forall. eauto.
  - revert w. induction unique as [|wp unique IH]; intros w.
    + exists [], w. simpl. rewrite app_nil_r. repeat split. constructor.
    + destruct (get_weather_data_configured provider str key
                  (wp_lat wp) (wp_lon wp) w Hkey) as (observation & Hget & _).
      destruct (IH (add_call w (weather_request key (wp_lat wp) (wp_lon wp))))
        as (entries & w' & Hrest & Hall & Hcalls & Hlogs).
      exists (entry_of wp observation :: entries), w'.
      split; [|split; [|split]].
      * simpl. unfold io_bind at 1. rewrite Hget.
        unfold io_bind at 1. rewrite Hrest. done.
      * constructor; [eauto|done].
      * rewrite Hcalls. simpl. by rewrite <- app_assoc.
      * by rewrite Hlogs.
Qed.

End LookupProperties.

Lemma get_weather_data_failure_kind_witness :
  let answer := sample_provider (length (calls (add_call fresh_world
                   (weather_request "key" 0 0)))) (weather_request "key" 1 1) in
  let observation :=
    (get_weather_data "key" sample_provider sample_str 1 1
       (add_call fresh_world (weather_request "key" 0 0))).1 in
  (answer = NoResponse RequestException → observation = Ok fetch_failed) ∧
  (∀ status_code body,
     answer = Response status_code body →
     400 ≤ status_code < 600 →
     observation = Ok fetch_failed) ∧
  (∀ status_code data,
     answer = Response status_code (Ok data) →
     ¬ (400 ≤ status_code < 600) →
     well_formed data = false →
     observation = Ok process_failed).
Proof.
  apply (get_weather_data_failure_kind sample_provider sample_str "key" 1 1
           (add_call fresh_world (weather_request "key" 0 0))).
  discriminate.
Defined.

Section HandlerExtras.

Context (provider : nat → request → http_result).
Context (str : json → string).

(** The two ways the handler ends once the legs are known. *)
Lemma route_weather_cases (key start_addr end_addr : string)
    (db : option (log_data → result unit)) (legs : list route_leg) (w : world) :
  match reduce_route legs with
  | Raise _ =>
      route_weather key provider str db start_addr end_addr legs w =
      (error_reply 500 "Internal server error. Please try again later.", w)
  | Ok unique =>
      ∃ entries w1 first_leg,
        fetch_weather key provider str unique w = (Ok entries, w1) ∧
        head legs = Some first_leg ∧
        let response_data :=
          {| success := true;
             resp_start_address := start_addr;
             resp_end_address := end_addr;
             distance := default "N/A" (distance_text first_leg);
             duration := default "N/A" (duration_text first_leg);
             weather_data := entries |} in
        route_weather key provider str db start_addr end_addr legs w =
        ({| status := 200; reply := Payload response_data |},
         (log_to_mongodb db
            {| log_start_address := start_addr;
               log_end_address := end_addr;
               waypoint_count := len unique;
               response := response_data |} w1).2)
  end.
Proof.
  destruct (reduce_route legs) as [unique|e] eqn:Hreduce.
  - destruct (fetch_weather_effects provider str key unique w)
      as (entries & w1 & Hfetch & _).
    destruct (reduce_route_bounds legs unique Hreduce) as [[first_leg Hhead] _].
    exists entries, w1, first_leg. split; [done|]. split; [done|].
    unfold route_weather, route_weather_body.
    unfold io_bind at 1, lift at 1. rewrite Hreduce.
    unfold io_bind at 1. rewrite Hfetch.
    unfold io_bind at 1, lift at 1. rewrite getitem_first, Hhead.
    unfold io_bind at 1.
    match goal with
    | |- context [log_to_mongodb db ?q w1] =>
        destruct (log_to_mongodb_total db q w1) as (w2 & Hlog & _)
    end.
    rewrite Hlog. done.
  - unfold route_weather, route_weather_body, io_bind, lift.
    by rewrite Hreduce.
Qed.

(** The handler answers 200 exactly for a route with at least one leg all
    of whose legs have steps; every other route gets the generic 500 reply
    and leaves the world as it was (no lookup, no log). *)
Theorem route_weather_status (key start_addr end_addr : string)
    (db : option (log_data → result unit)) (legs : list route_leg) (w : world) :
  let outcome := route_weather key provider str db start_addr end_addr legs w in
  (status outcome.1 = 200 ↔ legs ≠ [] ∧ Forall (λ leg, steps leg ≠ []) legs) ∧
  (status outcome.1 = 200 ∨
   outcome = (error_reply 500 "Internal server error. Please try again later.", w)).
Proof.
  intros outcome. unfold outcome.
  rewrite <- reduce_route_ok_iff.
  pose proof (route_weather_cases key start_addr end_addr db legs w) as Hcases.
  destruct (reduce_route legs) as [unique|e].
  - destruct Hcases as (entries & w1 & first_leg & _ & _ & ->). simpl.
    split; [done|by left].
  - rewrite Hcases. simpl. split; [done|by right].
Qed.

(** What a 200 reply holds: the addresses it was given, the distance and
    duration texts of the first leg (['N/A'] when absent), and one entry
    per reduced waypoint, in order and with its address and coordinates;
    between 1 and 17 entries.  The provider was sent one request per
    entry, in order, when a key is configured, and none otherwise. *)
Theorem route_weather_payload (key start_addr end_addr : string)
    (db : option (log_data → result unit)) (legs : list route_leg)
    (w w' : world) (response_data : response_data) :
  route_weather key provider str db start_addr end_addr legs w =
    ({| status := 200; reply := Payload response_data |}, w') →
  ∃ unique first_leg,
    reduce_route legs = Ok unique ∧
    head legs = Some first_leg ∧
    success response_data = true ∧
    resp_start_address response_data = start_addr ∧
    resp_end_address response_data = end_addr ∧
    distance response_data = default "N/A" (distance_text first_leg) ∧
    duration response_data = default "N/A" (duration_text first_leg) ∧
    Forall2 (λ wp e, ∃ observation, e = entry_of wp observation)
      unique (weather_data response_data) ∧
    1 ≤ len (weather_data response_data) ≤ 17 ∧
    calls w' =
      calls w ++
      (if decide (key = "") then []
       else (λ wp, weather_request key (wp_lat wp) (wp_lon wp)) <$> unique).
Proof.
  intros Hroute.
  pose proof (route_weather_cases key start_addr end_addr db legs w) as Hcases.
  destruct (reduce_route legs) as [unique|e] eqn:Hreduce;
    [|rewrite Hcases in Hroute; discriminate].
  destruct Hcases as (entries & w1 & first_leg & Hfetch & Hhead & Hcases).
  rewrite Hcases in Hroute. injection Hroute as <- <-.
  destruct (fetch_weather_effects provider str key unique w)
    as (entries' & w1' & Hfetch' & Hall & Hcalls & _).
  rewrite Hfetch in Hfetch'. injection Hfetch' as <- <-.
  destruct (reduce_route_bounds legs unique Hreduce) as [_ Hb].
  exists unique, first_leg. simpl.
  repeat (split; [done|]). split.
  - apply Forall2_length in Hall. unfold len in *. lia.
  - match goal with
    | |- context [log_to_mongodb db ?q w1] =>
        destruct (log_to_mongodb_total db q w1) as (w2 & Hlog & Hw2)
    end.
    rewrite Hlog. cbn [snd]. by rewrite Hw2.
Qed.

(** Persistence is best effort: whether a database is connected, and
    whether it accepts the document, changes neither the reply nor the
    requests sent to the weather provider. *)
Theorem route_weather_db_independent (key start_addr end_addr : string)
    (db1 db2 : option (log_data → result unit))
    (legs : list route_leg) (w : world) :
  (route_weather key provider str db1 start_addr end_addr legs w).1 =
  (route_weather key provider str db2 start_addr end_addr legs w).1 ∧
  calls (route_weather key provider str db1 start_addr end_addr legs w).2 =
  calls (route_weather key provider str db2 start_addr end_addr legs w).2.
Proof.
  pose proof (route_weather_cases key start_addr end_addr db1 legs w) as H1.
  pose proof (route_weather_cases key start_addr end_addr db2 legs w) as H2.
  destruct (reduce_route legs) as [unique|e]; [|by rewrite H1, H2].
  destruct H1 as (entries & w1 & first_leg & Hfetch & Hhead & ->).
  destruct H2 as (entries' & w1' & first_leg' & Hfetch' & Hhead' & ->).
  rewrite Hfetch in Hfetch'. injection Hfetch' as <- <-.
  rewrite Hhead in Hhead'. injection Hhead' as <-.
  split; [done|]. cbn [snd].
  match goal with
  | |- calls (log_to_mongodb db1 ?q w1).2 = _ =>
      destruct (log_to_mongodb_total db1 q w1) as (wa & Ha & Hca);
      destruct (log_to_mongodb_total db2 q w1) as (wb & Hb & Hcb)
  end.
  rewrite Ha, Hb. cbn [snd]. by rewrite Hca, Hcb.
Qed.

(** What is logged: nothing for a 500 reply or without a database; for a
    200 reply one document when [insert_one] accepts it, holding the
    addresses, the payload sent to the client and, as [waypoint_count],
    the number of its weather entries. *)
Theorem route_weather_logging (key start_addr end_addr : string)
    (db : option (log_data → result unit)) (legs : list route_leg) (w : world) :
  let outcome := route_weather key provider str db start_addr end_addr legs w in
  query_logs outcome.2 =
  query_logs w ++
  match db, reply outcome.1 with
  | Some insert_one, Payload response_data =>
      let document :=
        {| log_start_address := start_addr;
           log_end_address := end_addr;
           waypoint_count := len (weather_data response_data);
           response := response_data |} in
      if is_ok (insert_one document) then [document] else []
  | _, _ => []
  end.
Proof.
  intros outcome. unfold outcome.
  pose proof (route_weather_cases key start_addr end_addr db legs w) as Hcases.
  destruct (reduce_route legs) as [unique|e] eqn:Hreduce.
  - destruct Hcases as (entries & w1 & first_leg & Hfetch & Hhead & ->).
    destruct (fetch_weather_effects provider str key unique w)
      as (entries' & w1' & Hfetch' & Hall & _ & Hlogs).
    rewrite Hfetch in Hfetch'. injection Hfetch' as <- <-.
    apply Forall2_length in Hall.
    assert (len unique = len entries) as -> by (unfold len; lia).
    cbn [fst snd reply weather_data]. unfold log_to_mongodb.
    destruct db as [insert_one|]; [|simpl; by rewrite Hlogs, app_nil_r].
    destruct (insert_one _); simpl; by rewrite Hlogs, ?app_nil_r.
  - rewrite Hcases. simpl. destruct db; by rewrite app_nil_r.
Qed.

Lemma route_weather_no_db (key start_addr end_addr : string)
    (legs : list route_leg) (w : world) :
  query_logs
    (route_weather key provider str None start_addr end_addr legs w).2 =
  query_logs w.
Proof.
  pose proof (route_weather_cases key start_addr end_addr None legs w) as Hcases.
  destruct (reduce_route legs) as [unique|e]; [|by rewrite Hcases].
  destruct Hcases as (entries & w1 & first_leg & Hfetch & _ & ->).
  destruct (fetch_weather_effects provider str key unique w)
    as (entries' & w1' & Hfetch' & _ & _ & Hlogs).
  rewrite Hfetch in Hfetch'. by injection Hfetch' as <- <-.
Qed.

End HandlerExtras.

Lemma route_weather_payload_witness :
  ∃ unique first_leg,
    reduce_route [leg_of_steps 1] = Ok unique ∧
    head [leg_of_steps 1] = Some first_leg ∧
    success
      (ResponseData true "A" "B" "10 km" "12 mins"
         ((λ wp, entry_of wp not_configured) <$> sample_unique)) = true ∧
    resp_start_address
      (ResponseData true "A" "B" "10 km" "12 mins"
         ((λ wp, entry_of wp not_configured) <$> sample_unique)) = "A" ∧
    resp_end_address
      (ResponseData true "A" "B" "10 km" "12 mins"
         ((λ wp, entry_of wp not_configured) <$> sample_unique)) = "B" ∧
    distance
      (ResponseData true "A" "B" "10 km" "12 mins"
         ((λ wp, entry_of wp not_configured) <$> sample_unique))
      = default "N/A" (distance_text first_leg) ∧
    duration
      (ResponseData true "A" "B" "10 km" "12 mins"
         ((λ wp, entry_of wp not_configured) <$> sample_unique))
      = default "N/A" (duration_text first_leg) ∧
    Forall2 (λ wp e, ∃ observation, e = entry_of wp observation)
      unique
      (weather_data
         (ResponseData true "A" "B" "10 km" "12 mins"
            ((λ wp, entry_of wp not_configured) <$> sample_unique))) ∧
    1 ≤ len (weather_data
               (ResponseData true "A" "B" "10 km" "12 mins"
                  ((λ wp, entry_of wp not_configured) <$> sample_unique))) ≤ 17 ∧
    calls fresh_world =
      calls fresh_world ++
      (if decide ("" = "") then []
       else (λ wp, weather_request "" (wp_lat wp) (wp_lon wp)) <$> unique).
Proof.
  apply (route_weather_payload sample_provider sample_str "" "A" "B" None
           [leg_of_steps 1] fresh_world fresh_world).
  by vm_compute.
Defined.

(** * Properties of the endpoint *)

(** Membership in a list given by its elements. *)
Ltac in_list :=
  repeat first [ apply list_elem_of_here | apply list_elem_of_further ].

Section EndpointProperties.

Context (GOOGLE_MAPS_KEY WEATHER_API_KEY : string).
Context (provider : nat → request → http_result).
Context (str : json → string).
Context (db : option (log_data → result unit)).
Context (strip : string → string).
Context (gmaps : option (string → string → result (list route))).

#[local] Abbreviation endpoint :=
  (route_weather_endpoint WEATHER_API_KEY provider str db strip gmaps).

(** Every run of the endpoint either stops with one of seven error
    replies, leaving the world as it was, or reaches the waypoint pipeline
    with two non-empty stripped addresses and the first route found. *)
Lemma endpoint_cases (request_json : result json) (w : world) :
  (endpoint request_json w).2 = w ∧
  (endpoint request_json w).1 ∈
    [ error_reply 500 "Internal server error. Please try again later.";
      error_reply 400 "No data provided";
      error_reply 400 "Both start_address and end_address are required";
      error_reply 503
        "Google Maps API not configured. Please set GOOGLE_MAPS_KEY environment variable.";
      error_reply 500 "Google Maps API error. Please check your API key and try again.";
      error_reply 500
        "Error calculating route. Please verify your addresses and try again.";
      error_reply 404 "No route found between the specified addresses" ]
  ∨
  ∃ data start_addr end_addr directions first_route routes,
    request_json = Ok data ∧
    truthy data = true ∧
    address_field strip data "start_address" = Ok start_addr ∧
    address_field strip data "end_address" = Ok end_addr ∧
    start_addr ≠ "" ∧ end_addr ≠ "" ∧
    gmaps = Some directions ∧
    directions start_addr end_addr = Ok (first_route :: routes) ∧
    endpoint request_json w =
      route_weather WEATHER_API_KEY provider str db start_addr end_addr
        (route_legs first_route) w.
Proof.
  unfold route_weather_endpoint.
  destruct request_json as [data|e];
    [|left; split; [done|in_list]].
  destruct (truthy data) eqn:Htruthy; cbn -[route_weather];
    [|left; split; [done|in_list]].
  destruct (address_field strip data "start_address") as [start_addr|] eqn:Hstart;
    cbn -[route_weather]; [|left; split; [done|in_list]].
  destruct (address_field strip data "end_address") as [end_addr|] eqn:Hend;
    cbn -[route_weather]; [|left; split; [done|in_list]].
  destruct (decide (start_addr = "")) as [-> | Hs];
    [left; cbn -[route_weather]; split; [done|in_list]|].
  rewrite (bool_decide_eq_false_2 (start_addr = "")) by done.
  destruct (decide (end_addr = "")) as [-> | He];
    [left; cbn -[route_weather]; split; [done|in_list]|].
  rewrite (bool_decide_eq_false_2 (end_addr = "")) by done.
  cbn -[route_weather].
  destruct gmaps as [directions|]; [|left; split; [done|in_list]].
  destruct (directions start_addr end_addr) as [[|first_route routes]|e] eqn:Hdir.
  - left; split; [done|in_list].
  - right. by exists data, start_addr, end_addr, directions, first_route, routes.
  - left. case_decide; (split; [done|in_list]).
Qed.

(** The endpoint answers with one of five status codes; it sends a payload
    exactly with status 200; with any other status no request went to the
    weather provider and nothing was logged. *)
Theorem endpoint_status_codes (request_json : result json) (w : world) :
  status (endpoint request_json w).1 ∈ [200; 400; 404; 500; 503] ∧
  (status (endpoint request_json w).1 = 200 ↔
   ∃ response_data, reply (endpoint request_json w).1 = Payload response_data) ∧
  (status (endpoint request_json w).1 = 200 ∨ (endpoint request_json w).2 = w).
Proof.
  destruct (endpoint_cases request_json w)
    as [[Hw Hrep] | (data & s & e & directions & first_route & routes &
                     _ & _ & _ & _ & _ & _ & _ & _ & ->)].
  - rewrite !elem_of_cons in Hrep.
    destruct Hrep as [-> | [-> | [-> | [-> | [-> | [-> | [-> | []%elem_of_nil]]]]]]];
      simpl; (split; [in_list|split; [split; [done|by intros [? ?]]|by right]]).
  - pose proof (route_weather_cases provider str WEATHER_API_KEY s e db
                  (route_legs first_route) w) as Hcases.
    destruct (reduce_route (route_legs first_route)).
    + destruct Hcases as (entries & w1 & first_leg & _ & _ & ->). simpl.
      split; [in_list|]. split; [split; [eauto|done]|by left].
    + rewrite Hcases. simpl.
      split; [in_list|]. split; [split; [done|by intros [? ?]]|by right].
Qed.

(** Bodies the endpoint cannot use: an undecodable body gets the generic
    500, an empty one (null, false, 0, an empty string, list or object)
    gets 400 "No data provided", a non-empty body that is not an object
    gets the generic 500, and so does an object whose start or end address
    is not a string. *)
Theorem endpoint_rejects_bad_body (w : world) :
  (∀ e, endpoint (Raise e) w =
        (error_reply 500 "Internal server error. Please try again later.", w)) ∧
  (∀ data, truthy data = false →
     endpoint (Ok data) w = (error_reply 400 "No data provided", w)) ∧
  (∀ data, truthy data = true → (∀ members, data ≠ JObject members) →
     endpoint (Ok data) w =
     (error_reply 500 "Internal server error. Please try again later.", w)) ∧
  (∀ members k v,
     members ≠ ∅ →
     k ∈ ["start_address"; "end_address"] →
     members !! k = Some v →
     (∀ s, v ≠ JString s) →
     endpoint (Ok (JObject members)) w =
     (error_reply 500 "Internal server error. Please try again later.", w)).
Proof.
  split; [done|]. split; [|split].
  - intros data Hfalsy. unfold route_weather_endpoint. by rewrite Hfalsy.
  - intros data Htruthy Hobj. unfold route_weather_endpoint. rewrite Htruthy.
    destruct data; try done. by destruct (Hobj members).
  - intros members k v Hne Hk Hv Hstr.
    unfold route_weather_endpoint.
    assert (truthy (JObject members) = true) as ->.
    { simpl. by rewrite bool_decide_eq_false_2. }
    simpl.
    assert (∀ key, members !! key = Some v →
              address_field strip (JObject members) key = Raise AttributeError)
      as Hraise.
    { intros key Hkey. unfold address_field, dict_get. rewrite Hkey. simpl.
      unfold mbind, result_bind, str_strip.
      destruct v; try done. by destruct (Hstr s). }
    rewrite !elem_of_cons in Hk.
    destruct Hk as [-> | [-> | []%elem_of_nil]].
    + by rewrite (Hraise _ Hv).
    + rewrite (Hraise _ Hv).
      by destruct (address_field strip (JObject members) "start_address").
Qed.

(** A request without a usable start or end address (the key is missing,
    or its string is empty once stripped) gets 400, whether or not the
    routing client is configured. *)
Theorem endpoint_requires_addresses (members : gmap string json) (w : world) :
  strip "" = "" →
  members ≠ ∅ →
  (∀ k, k ∈ ["start_address"; "end_address"] →
     members !! k = None ∨ ∃ s, members !! k = Some (JString s)) →
  (∃ k, k ∈ ["start_address"; "end_address"] ∧
     (members !! k = None ∨ ∃ s, members !! k = Some (JString s) ∧ strip s = "")) →
  endpoint (Ok (JObject members)) w =
  (error_reply 400 "Both start_address and end_address are required", w).
Proof.
  intros Hstrip Hne Hstrings (k & Hk & Hblank).
  unfold route_weather_endpoint.
  assert (truthy (JObject members) = true) as ->.
  { simpl. by rewrite bool_decide_eq_false_2. }
  simpl.
  assert (∀ key, key ∈ ["start_address"; "end_address"] →
            ∃ s, address_field strip (JObject members) key = Ok s ∧
                 ((members !! key = None ∨
                   ∃ s', members !! key = Some (JString s') ∧ strip s' = "") →
                  s = "")) as Hfield.
  { intros key Hkey. unfold address_field, dict_get.
    destruct (Hstrings key Hkey) as [Hnone | [s Hs]].
    - rewrite Hnone. simpl. exists (strip ""). split; [done|]. by intros _.
    - rewrite Hs. simpl. exists (strip s). split; [done|].
      intros [? | (s' & [= <-] & ?)]; done. }
  destruct (Hfield "start_address") as (s1 & -> & H1); [in_list|].
  destruct (Hfield "end_address") as (s2 & -> & H2); [in_list|].
  unfold mbind, result_bind.
  rewrite !elem_of_cons in Hk.
  destruct Hk as [-> | [-> | []%elem_of_nil]].
  - rewrite (H1 Hblank). done.
  - rewrite (H2 Hblank). simpl. by rewrite orb_true_r.
Qed.

(** A payload is only sent for a body that is an object with two string
    addresses whose stripped forms are non-empty; the reply echoes the
    stripped addresses, the routing client was asked for exactly these,
    and only the first route it found was used. *)
Theorem endpoint_payload (request_json : result json) (w : world)
    (response_data : response_data) :
  reply (endpoint request_json w).1 = Payload response_data →
  ∃ members s e directions first_route routes,
    request_json = Ok (JObject members) ∧
    default (JString "") (members !! "start_address") = JString s ∧
    default (JString "") (members !! "end_address") = JString e ∧
    strip s ≠ "" ∧ strip e ≠ "" ∧
    resp_start_address response_data = strip s ∧
    resp_end_address response_data = strip e ∧
    gmaps = Some directions ∧
    directions (strip s) (strip e) = Ok (first_route :: routes) ∧
    endpoint request_json w =
      route_weather WEATHER_API_KEY provider str db (strip s) (strip e)
        (route_legs first_route) w.
Proof.
  intros Hreply.
  destruct (endpoint_cases request_json w)
    as [[_ Hrep] | (data & start_addr & end_addr & directions & first_route &
                    routes & -> & _ & Hstart & Hend & Hs & He & Hg & Hdir & Hrun)].
  - exfalso. rewrite !elem_of_cons in Hrep.
    destruct Hrep as [H | [H | [H | [H | [H | [H | [H | []%elem_of_nil]]]]]]];
      rewrite H in Hreply; discriminate.
  - unfold address_field, dict_get in Hstart, Hend.
    destruct data as [| | | | |members]; try done.
    simpl in Hstart, Hend. unfold str_strip in Hstart, Hend.
    destruct (default (JString "") (members !! "start_address"))
      as [| | |s| |] eqn:Hs'; try done.
    destruct (default (JString "") (members !! "end_address"))
      as [| | |e| |] eqn:He'; try done.
    injection Hstart as <-. injection Hend as <-.
    exists members, s, e, directions, first_route, routes.
    rewrite Hrun in Hreply.
    pose proof (route_weather_cases provider str WEATHER_API_KEY (strip s) (strip e)
                  db (route_legs first_route) w) as Hcases.
    destruct (reduce_route (route_legs first_route));
      [|rewrite Hcases in Hreply; discriminate].
    destruct Hcases as (entries & w1 & first_leg & _ & _ & Hcases).
    rewrite Hcases in Hreply. simpl in Hreply. injection Hreply as <-.
    repeat split; done.
Qed.

(** The health report agrees with what the code does: the weather API is
    reported as not configured exactly when every lookup returns the "not
    configured" marker without a request, and with the database reported
    as not connected no request handler logs anything. *)
Theorem health_check_consistent :
  let report := health_check GOOGLE_MAPS_KEY WEATHER_API_KEY db in
  (weather_api_configured report = false ↔
   ∀ lat lon w,
     get_weather_data WEATHER_API_KEY provider str lat lon w
     = (Ok not_configured, w)) ∧
  (mongodb_connected report = false →
   ∀ request_json w, query_logs (endpoint request_json w).2 = query_logs w).
Proof.
  simpl. split.
  - rewrite negb_false_iff, bool_decide_eq_true. split.
    + intros ->. apply get_weather_data_no_key.
    + intros Hall. destruct (decide (WEATHER_API_KEY = "")) as [|Hkey]; [done|].
      destruct (get_weather_data_configured provider str WEATHER_API_KEY
                  0%Q 0%Q fresh_world Hkey) as (observation & Hget & _).
      rewrite Hall in Hget. discriminate.
  - rewrite bool_decide_eq_false. intros Hdb request_json w.
    assert (db = None) as Hnone by (by apply eq_None_not_Some).
    destruct (endpoint_cases request_json w)
      as [[-> _] | (data & s & e & directions & first_route & routes &
                    _ & _ & _ & _ & _ & _ & _ & _ & ->)]; [done|].
    rewrite Hnone. apply route_weather_no_db.
Qed.

End EndpointProperties.

Lemma endpoint_requires_addresses_witness :
  route_weather_endpoint "key" sample_provider sample_str None strip_spaces
    sample_gmaps
    (Ok (JObject {[ "start_address" := JString "   "; "end_address" := JString "B" ]}))
    fresh_world =
  (error_reply 400 "Both start_address and end_address are required", fresh_world).
Proof.
  apply (endpoint_requires_addresses "key" sample_provider sample_str None
           strip_spaces sample_gmaps
           {[ "start_address" := JString "   "; "end_address" := JString "B" ]}
           fresh_world).
  - reflexivity.
  - by vm_compute.
  - intros k Hk. rewrite !elem_of_cons in Hk.
    destruct Hk as [-> | [-> | []%elem_of_nil]]; right; by eexists.
  - exists "start_address". split; [by left|]. right. by eexists.
Defined.

Lemma endpoint_payload_witness :
  ∃ members s e directions first_route routes,
    Ok sample_request = Ok (JObject members) ∧
    default (JString "") (members !! "start_address") = JString s ∧
    default (JString "") (members !! "end_address") = JString e ∧
    strip_spaces s ≠ "" ∧ strip_spaces e ≠ "" ∧
    resp_start_address
      (ResponseData true "A" "B" "10 km" "12 mins"
         ((λ wp, entry_of wp not_configured) <$> sample_unique)) = strip_spaces s ∧
    resp_end_address
      (ResponseData true "A" "B" "10 km" "12 mins"
         ((λ wp, entry_of wp not_configured) <$> sample_unique)) = strip_spaces e ∧
    sample_gmaps = Some directions ∧
    directions (strip_spaces s) (strip_spaces e) = Ok (first_route :: routes) ∧
    route_weather_endpoint "" sample_provider sample_str None strip_spaces
      sample_gmaps (Ok sample_request) fresh_world =
      route_weather "" sample_provider sample_str None
        (strip_spaces s) (strip_spaces e) (route_legs first_route) fresh_world.
Proof.
  apply (endpoint_payload "" sample_provider sample_str None strip_spaces
           sample_gmaps (Ok sample_request) fresh_world).
  by vm_compute.
Defined.
